(** * hive_utils.hive_client: connection lifecycle, result cursor and
      schema helpers of the Hive thrift wrapper

    Shallow embedding of [src/hive_utils/hive_client.py].  The thrift
    transport and the generated [ThriftHive.Client] stub are external
    collaborators: they are modelled as a [World] holding the transport
    flags, the state of the remote service and the trace of every call
    that crossed the process boundary.  Python code becomes a
    state-and-exception monad over that world; the generator returned by
    [HiveClient.execute] becomes a resumable state machine. *)

From Stdlib Require Import ZArith Ascii String.
From stdpp Require Import base option list strings gmap.

Open Scope string_scope.
Open Scope list_scope.

(** ** Exceptions and results *)

(** The module defines one exception class, [HiveClientException]; it is
    raised with its constructor arguments kept as a tuple.  Everything the
    thrift layer raises is a [RemoteException]; a failed [assert] is an
    [AssertionError]. *)
Inductive exn : Type :=
| HiveClientException (args : list string)
| AssertionError
| RemoteException (what : string).

Inductive result (A : Type) : Type :=
| Ok (a : A)
| Raise (e : exn).
Arguments Ok {A} a.
Arguments Raise {A} e.

(** ** Data model *)

(** [hive_metastore.ttypes.FieldSchema]. *)
Record FieldSchema : Type := mkFieldSchema {
  name : string;
  type : string;
  comment : string
}.

(** [hive_metastore.ttypes.Table], reduced to the part this module
    touches: [table.sd.cols]. *)
Record Table : Type := mkTable { sd_cols : list FieldSchema }.

(** Calls that reach the transport or the remote service, in the order
    they are issued. *)
Inductive event : Type :=
| EvOpen
| EvClose
| EvGetDatabase (db : string)
| EvExecute (query : string)
| EvGetThriftSchema
| EvFetchN (n : Z)
| EvGetTable (db table_name : string)
| EvAlterTable (db table_name : string) (tbl : Table).

(** The buffered transport.  [keep_open] is an attribute that does not
    exist until [session] assigns it, hence the option. *)
Record Transport : Type := mkTransport {
  is_open : bool;
  keep_open : option bool
}.

(** The remote service as seen through the stub.  [run_query] gives, for
    a query, either the failure the service answers with or the result
    schema together with the batches that successive [fetchN] calls will
    return. *)
Record Server : Type := mkServer {
  databases : string -> result bool;
  tables : gmap (string * string) Table;
  run_query : string -> result (list FieldSchema * list (list string));
  cur_schema : list FieldSchema;
  cur_batches : list (list string)
}.

Record World : Type := mkWorld {
  transport : Transport;
  server : Server;
  trace : list event
}.

(** ** The state-and-exception monad *)

Definition M (A : Type) : Type := World -> result A * World.

Definition ret {A} (a : A) : M A := fun w => (Ok a, w).

Definition raise {A} (e : exn) : M A := fun w => (Raise e, w).

Definition bind {A B} (c : M A) (k : A -> M B) : M B :=
  fun w =>
    match c w with
    | (Ok a, w') => k a w'
    | (Raise e, w') => (Raise e, w')
    end.

Declare Scope hive_scope.
Delimit Scope hive_scope with hive.
Notation "x <- c ;; k" := (bind c (fun x => k))
  (at level 100, c at next level, right associativity) : hive_scope.
Notation "c ;; k" := (bind c (fun _ => k))
  (at level 100, right associativity) : hive_scope.
Open Scope hive_scope.

(** [try: body except: handler] with a bare [except]. *)
Definition try_except {A} (body : M A) (handler : M A) : M A :=
  fun w =>
    match body w with
    | (Ok a, w') => (Ok a, w')
    | (Raise _, w') => handler w'
    end.

(** [assert b]. *)
Definition py_assert (b : bool) : M unit :=
  if b then ret tt else raise AssertionError.

Definition log (e : event) : M unit :=
  fun w => (Ok tt, mkWorld (transport w) (server w) (trace w ++ [e])).

Definition set_transport (t : Transport) : M unit :=
  fun w => (Ok tt, mkWorld t (server w) (trace w)).

Definition set_server (s : Server) : M unit :=
  fun w => (Ok tt, mkWorld (transport w) s (trace w)).

Definition get_world : M World := fun w => (Ok w, w).

(** ** The transport

    [open] and [close] are taken to succeed; each is logged and sets the
    state of the socket. *)

Definition transport_open : M unit :=
  w <- get_world ;;
  log EvOpen ;;
  set_transport (mkTransport true (keep_open (transport w))).

Definition transport_close : M unit :=
  w <- get_world ;;
  log EvClose ;;
  set_transport (mkTransport false (keep_open (transport w))).

(** [transport.keep_open = b]. *)
Definition set_keep_open (b : bool) : M unit :=
  w <- get_world ;;
  set_transport (mkTransport (is_open (transport w)) (Some b)).

(** Truth value of [getattr(transport, 'keep_open', None)]. *)
Definition pinned (t : Transport) : bool :=
  match keep_open t with
  | Some b => b
  | None => false
  end.

(** ** Generator-based context managers

    [@contextlib.contextmanager] runs the generator up to its [yield] on
    entry.  On a normal exit of the [with] body it resumes the generator,
    which runs the code after the [yield].  When the body raises, the
    exception is thrown into the generator at the [yield]; neither
    [openclose] nor [session] wraps its [yield] in [try], so the
    generator dies there and the exception leaves the [with] statement
    with the code after the [yield] never run. *)
Definition contextmanager {A} (before after : M unit) (body : M A) : M A :=
  fun w =>
    match before w with
    | (Raise e, w1) => (Raise e, w1)
    | (Ok _, w1) =>
        match body w1 with
        | (Raise e, w2) => (Raise e, w2)
        | (Ok a, w2) =>
            match after w2 with
            | (Ok _, w3) => (Ok a, w3)
            | (Raise e, w3) => (Raise e, w3)
            end
        end
    end.

(** [if not getattr(transport, 'keep_open', None): op]. *)
Definition unless_pinned (op : M unit) : M unit :=
  fun w => if pinned (transport w) then (Ok tt, w) else op w.

(** [with openclose(transport): body]. *)
Definition openclose {A} (body : M A) : M A :=
  contextmanager (unless_pinned transport_open)
                 (unless_pinned transport_close) body.

(** ** The generated client stub *)

(** Every stub call is logged and then answered from the state of the
    service.  [get_database], [get_table] and [execute] can raise;
    [alter_table], [getThriftSchema] and [fetchN] are taken to succeed,
    and a fetch from a result with no batch left answers the empty
    batch. *)

(** The service after it accepted [tbl] as the definition of
    [db.table_name]. *)
Definition put_table (s : Server) (db table_name : string) (tbl : Table)
  : Server :=
  mkServer (databases s) (<[(db, table_name) := tbl]> (tables s))
           (run_query s) (cur_schema s) (cur_batches s).

(** The service holding a query result: its schema and the batches not
    fetched yet. *)
Definition with_result (s : Server) (schema : list FieldSchema)
    (batches : list (list string)) : Server :=
  mkServer (databases s) (tables s) (run_query s) schema batches.

Module Stub.

Definition get_database (db : string) : M bool :=
  log (EvGetDatabase db) ;;
  w <- get_world ;;
  match databases (server w) db with
  | Ok b => ret b
  | Raise e => raise e
  end.

Definition get_table (db table_name : string) : M Table :=
  log (EvGetTable db table_name) ;;
  w <- get_world ;;
  match tables (server w) !! (db, table_name) with
  | Some t => ret t
  | None => raise (RemoteException "NoSuchObjectException")
  end.

Definition alter_table (db table_name : string) (tbl : Table) : M unit :=
  log (EvAlterTable db table_name tbl) ;;
  w <- get_world ;;
  set_server (put_table (server w) db table_name tbl).

Definition execute (query : string) : M unit :=
  log (EvExecute query) ;;
  w <- get_world ;;
  match run_query (server w) query with
  | Ok (schema, batches) => set_server (with_result (server w) schema batches)
  | Raise e => raise e
  end.

Definition getThriftSchema : M (list FieldSchema) :=
  log EvGetThriftSchema ;;
  w <- get_world ;;
  ret (cur_schema (server w)).

Definition fetchN (n : Z) : M (list string) :=
  log (EvFetchN n) ;;
  w <- get_world ;;
  match cur_batches (server w) with
  | [] => ret []
  | rows :: rest =>
      set_server (with_result (server w) (cur_schema (server w)) rest) ;;
      ret rows
  end.

End Stub.

(** ** Python values used by the schema helpers *)

(** Positional [zip], [str.split('\t')] and [dict(pairs)].  [dict] keeps
    the last value given for a key. *)
Definition tab : ascii := Ascii.ascii_of_nat 9.

Fixpoint split_tab (s : string) : list string :=
  match s with
  | EmptyString => [EmptyString]
  | String c s' =>
      if Ascii.eqb c tab then EmptyString :: split_tab s'
      else match split_tab s' with
           | h :: t => String c h :: t
           | [] => [String c EmptyString]
           end
  end.

Definition py_dict (pairs : list (string * string)) : gmap string string :=
  foldl (fun d kv => <[kv.1 := kv.2]> d) ∅ pairs.

(** [==] between the objects that meet in [column_name in table.sd.cols]:
    a [str] and a [FieldSchema].  The thrift-generated [__eq__] starts
    with [isinstance(other, self.__class__)], so objects of different
    classes are never equal. *)
Inductive pyobj : Type :=
| PyStr (s : string)
| PyFieldSchema (f : FieldSchema).

Definition fieldschema_eqb (f g : FieldSchema) : bool :=
  String.eqb (name f) (name g) && String.eqb (type f) (type g)
  && String.eqb (comment f) (comment g).

Definition py_eq (a b : pyobj) : bool :=
  match a, b with
  | PyStr s, PyStr t => String.eqb s t
  | PyFieldSchema f, PyFieldSchema g => fieldschema_eqb f g
  | _, _ => false
  end.

(** [x in l]. *)
Definition py_in (x : pyobj) (l : list pyobj) : bool :=
  existsb (fun y => py_eq y x) l.

(** ** HiveClient *)

Record HiveClient : Type := mkHiveClient { db : string }.

(** The transport as [TBufferedTransport(TSocket(...))] creates it. *)
Definition fresh_transport : Transport := mkTransport false None.

Definition fresh_world (srv : Server) : World :=
  mkWorld fresh_transport srv [].

(** [HiveClient.__init__]: the result is the client object, or the
    exception that leaves the constructor, in which case no object is
    ever bound. *)
Definition __init__ (srv : Server) (db : string) : result HiveClient * World :=
  (openclose (found <- Stub.get_database db ;; py_assert found) ;;
   ret (mkHiveClient db)) (fresh_world srv).

(** [HiveClient.session]. *)
Definition session_enter : M unit :=
  transport_open ;; set_keep_open true.

Definition session_exit : M unit :=
  transport_close ;; set_keep_open false.

Definition session {A} (body : M A) : M A :=
  contextmanager session_enter session_exit body.

Definition get_table (self : HiveClient) (table_name : string) : M Table :=
  openclose
    (try_except
       (Stub.get_table (db self) table_name)
       (raise (HiveClientException ["Table " +:+ table_name +:+ " does not exist"]))).

Definition get_columns (self : HiveClient) (table_name : string)
  : M (list (string * string)) :=
  openclose
    (table <- Stub.get_table (db self) table_name ;;
     ret (map (fun col => (name col, type col)) (sd_cols table))).

Definition add_column (self : HiveClient)
    (table_name column_name data_type comment : string) : M unit :=
  openclose
    (table <- Stub.get_table (db self) table_name ;;
     if py_in (PyStr column_name) (map PyFieldSchema (sd_cols table))
     then raise (HiveClientException
                   ["Table %s already has column %s"; table_name; column_name])
     else
       let new_column := mkFieldSchema column_name data_type comment in
       let table := mkTable (sd_cols table ++ [new_column]) in
       Stub.alter_table (db self) table_name table).

Definition remove_column (self : HiveClient)
    (table_name column_name : string) : M unit :=
  openclose
    (table <- Stub.get_table (db self) table_name ;;
     let num_cols := Z.of_nat (length (sd_cols table)) in
     let table :=
       mkTable (filter (fun col => name col ≠ column_name) (sd_cols table)) in
     if (Z.of_nat (length (sd_cols table)) - 1 =? num_cols)%Z
     then Stub.alter_table (db self) table_name table
     else raise (HiveClientException
                   ["Table " +:+ table_name +:+ " does not have column "
                      +:+ column_name])).

(** [columns_to_alter] holds references into [table.sd.cols]; a reference
    is the position of the column in that list.  Each round of the loop
    writes through one reference and submits the table as it is then. *)
Definition to_alter (column_name data_type : string) (col : FieldSchema)
  : bool :=
  String.eqb (name col) column_name && negb (String.eqb (type col) data_type).

Definition columns_to_alter (cols : list FieldSchema)
    (column_name data_type : string) : list nat :=
  filter (fun i => Is_true (from_option (to_alter column_name data_type)
                                        false (cols !! i)))
         (seq 0 (length cols)).

Definition set_type (data_type : string) (col : FieldSchema) : FieldSchema :=
  mkFieldSchema (name col) data_type (comment col).

Fixpoint alter_loop (self : HiveClient) (table_name data_type : string)
    (refs : list nat) (table : Table) : M unit :=
  match refs with
  | [] => ret tt
  | i :: refs' =>
      let table := mkTable (alter (set_type data_type) i (sd_cols table)) in
      Stub.alter_table (db self) table_name table ;;
      alter_loop self table_name data_type refs' table
  end.

Definition alter_column_type (self : HiveClient)
    (table_name column_name data_type comment : string) : M unit :=
  openclose
    (table <- Stub.get_table (db self) table_name ;;
     let col_names := map name (sd_cols table) in
     if bool_decide (column_name ∉ col_names)
     then raise (HiveClientException
                   ["Table %s does not have column %s"; table_name; column_name])
     else alter_loop self table_name data_type
            (columns_to_alter (sd_cols table) column_name data_type) table).

(** ** The result cursor: [HiveClient.execute]

    [execute] is a generator function: calling it only creates the
    generator object, and its body runs piecewise, one stretch per
    [next].  The [with openclose(...)] block lies inside the body, so the
    transport is entered on the first [next] and left when the loop
    breaks.  [ExecuteGen] is the suspended frame: not started yet,
    suspended at the [yield] with the field names and the rows of the
    current batch still to come, or finished. *)
Inductive ExecuteGen : Type :=
| GenCreated (query : string)
| GenSuspended (stypes : list string) (rows : list string)
| GenFinished.

(** [dict(zip(stypes, row.split('\t')))]. *)
Definition make_record (stypes : list string) (row : string)
  : gmap string string :=
  py_dict (zip stypes (split_tab row)).

Definition execute (self : HiveClient) (query : string) : ExecuteGen :=
  GenCreated query.

(** From the top of [while True] to the next [yield] or to the end. *)
Definition fetch_step (stypes : list string) (w : World)
  : result (option (gmap string string)) * ExecuteGen * World :=
  match Stub.fetchN 500 w with
  | (Raise e, w1) => (Raise e, GenFinished, w1)
  | (Ok [], w1) =>
      match unless_pinned transport_close w1 with
      | (Ok _, w2) => (Ok None, GenFinished, w2)
      | (Raise e, w2) => (Raise e, GenFinished, w2)
      end
  | (Ok (row :: rows), w1) =>
      (Ok (Some (make_record stypes row)), GenSuspended stypes rows, w1)
  end.

(** [next(gen)]: [Ok (Some r)] is a yielded record, [Ok None] is
    [StopIteration]. *)
Definition next (gen : ExecuteGen) (w : World)
  : result (option (gmap string string)) * ExecuteGen * World :=
  match gen with
  | GenCreated query =>
      match (unless_pinned transport_open ;;
             Stub.execute query ;;
             schema <- Stub.getThriftSchema ;;
             ret (map name schema)) w with
      | (Raise e, w1) => (Raise e, GenFinished, w1)
      | (Ok stypes, w1) => fetch_step stypes w1
      end
  | GenSuspended stypes (row :: rows) =>
      (Ok (Some (make_record stypes row)), GenSuspended stypes rows, w)
  | GenSuspended stypes [] => fetch_step stypes w
  | GenFinished => (Ok None, GenFinished, w)
  end.

(** A consumer that calls [next] until the generator stops, as
    [for record in client.execute(q)] does: the records received, how the
    iteration ended, and the generator and world it leaves.  [None] when
    [fuel] calls were not enough. *)
Fixpoint consume (fuel : nat) (gen : ExecuteGen) (w : World)
  : option (list (gmap string string) * result unit * ExecuteGen * World) :=
  match fuel with
  | O => None
  | S fuel' =>
      match next gen w with
      | (Ok (Some r), gen', w') =>
          match consume fuel' gen' w' with
          | Some (rs, fin, gen'', w'') => Some (r :: rs, fin, gen'', w'')
          | None => None
          end
      | (Ok None, gen', w') => Some ([], Ok tt, gen', w')
      | (Raise e, gen', w') => Some ([], Raise e, gen', w')
      end
  end.

(** * Vocabulary of the statements *)

(** ** Traces *)

#[global] Instance FieldSchema_eq_dec : EqDecision FieldSchema.
Proof. solve_decision. Defined.
#[global] Instance Table_eq_dec : EqDecision Table.
Proof. solve_decision. Defined.
#[global] Instance event_eq_dec : EqDecision event.
Proof. solve_decision. Defined.

(** How often the transport was opened, closed, and how many schemas were
    submitted, in a stretch of trace. *)
Definition opens (evs : list event) : nat :=
  length (filter (fun e => e = EvOpen) evs).

Definition closes (evs : list event) : nat :=
  length (filter (fun e => e = EvClose) evs).

Definition submitted (evs : list event) : list Table :=
  omap (fun e => match e with
                 | EvAlterTable _ _ tbl => Some tbl
                 | _ => None
                 end) evs.

Definition fetches (evs : list event) : list Z :=
  omap (fun e => match e with
                 | EvFetchN n => Some n
                 | _ => None
                 end) evs.

(** ** Concrete services

    Rows as the service sends them: values joined by a tab. *)
Definition tsv (values : list string) : string :=
  String.concat (String tab EmptyString) values.

(** A small service used for concrete runs: one database ["default"]
    with one table ["t"] of columns [x : int], and a query result of two
    columns. *)
Definition demo_server : Server :=
  mkServer
    (fun d => if String.eqb d "default" then Ok true
              else Raise (RemoteException "NoSuchObjectException"))
    {[ ("default", "t") := mkTable [mkFieldSchema "x" "int" ""] ]}
    (fun q => Ok ([mkFieldSchema "a" "string" ""; mkFieldSchema "b" "string" ""],
                  [[tsv ["1"; "2"]; tsv ["3"; "4"]]; []; [tsv ["5"; "6"]]]))
    [] [].

Definition demo_client : HiveClient := mkHiveClient "default".

Definition closed_world : World := fresh_world demo_server.

(** A service whose only row has one value for a result of two
    fields. *)
Definition short_row_server : Server :=
  mkServer
    (fun _ => Ok true) ∅
    (fun q => Ok ([mkFieldSchema "a" "string" ""; mkFieldSchema "b" "string" ""],
                  [[tsv ["1"]]]))
    [] [].

(** A service that refuses every query. *)
Definition refusing_server : Server :=
  mkServer
    (fun _ => Ok true) ∅
    (fun q => Raise (RemoteException "HiveServerException"))
    [] [].

(** ** Transport states and scoped bodies *)

Definition open_pinned : Transport := mkTransport true (Some true).
Definition closed_unpinned : Transport := mkTransport false (Some false).

(** A body that, started in [w], appends exactly [evs] to the trace and
    hands the transport back as it found it. *)
Definition emits {A} (body : M A) (w : World) (evs : list event) : Prop :=
  trace (body w).2 = trace w ++ evs ∧ transport (body w).2 = transport w.

(** Events other than opening and closing the transport. *)
Definition remote (e : event) : Prop := e ≠ EvOpen ∧ e ≠ EvClose.

(** [quiet c]: started with [keep_open] true, [c] performs no open and no
    close and hands the transport back unchanged. *)
Definition quiet {A} (c : M A) : Prop :=
  ∀ w, pinned (transport w) = true ->
    transport (c w).2 = transport w
    ∧ ∃ evs, trace (c w).2 = trace w ++ evs ∧ Forall remote evs.

(** A session block that runs the operations [ops] one after the other,
    each under [with openclose(transport)], up to the first that
    raises. *)
Definition scoped_calls (ops : list (M unit)) : M unit :=
  foldr (fun op rest => openclose op ;; rest) (ret tt) ops.

(** A block of three operations, the last two changing the schema. *)
Definition demo_block : list (M unit) :=
  [ get_columns demo_client "t" ;; ret tt;
    add_column demo_client "t" "y" "string" "";
    alter_column_type demo_client "t" "y" "bigint" "" ].

(** The world in which the body of [with openclose(...)] starts. *)
Definition entered (w : World) : World := (unless_pinned transport_open w).2.

(** ** Schemas

    The schema with every column named [column_name] given the type
    [data_type]. *)
Definition retype (column_name data_type : string) (col : FieldSchema)
  : FieldSchema :=
  if String.eqb (name col) column_name then set_type data_type col else col.

(** The tables the loop submits, one per reference, each the table as the
    writes so far have left it. *)
Fixpoint snapshots (data_type : string) (refs : list nat)
    (cols : list FieldSchema) : list Table :=
  match refs with
  | [] => []
  | i :: refs' =>
      let cols' := alter (set_type data_type) i cols in
      mkTable cols' :: snapshots data_type refs' cols'
  end.

(** ** Cursors

    The rows a generator has fetched and not yet turned into records. *)
Definition buffered (gen : ExecuteGen) : list string :=
  match gen with
  | GenSuspended _ rows => rows
  | _ => []
  end.

(** The field names of a cursor: those of the result of its query while
    it has not started, those it holds once it has. *)
Definition field_names (gen : ExecuteGen) (w : World) : option (list string) :=
  match gen with
  | GenCreated q =>
      match run_query (server w) q with
      | Ok (schema, _) => Some (map name schema)
      | Raise _ => None
      end
  | GenSuspended stypes _ => Some stypes
  | GenFinished => None
  end.

(** The batch the service will answer the next fetch of a cursor with. *)
Definition next_batch (gen : ExecuteGen) (w : World) : list string :=
  match gen with
  | GenCreated q =>
      match run_query (server w) q with
      | Ok (_, batches) => hd [] batches
      | Raise _ => []
      end
  | GenSuspended _ _ => hd [] (cur_batches (server w))
  | GenFinished => []
  end.

(** The rows the next record is taken from: what is left of the batch in
    hand, or the batch to fetch when nothing is left. *)
Definition source (gen : ExecuteGen) (w : World) : list string :=
  match buffered gen with
  | [] => next_batch gen w
  | rows => rows
  end.

(** ** Footprints of operations *)

(** [emits_only P c]: whatever the world, [c] only appends to the trace,
    and only events that satisfy [P]. *)
Definition emits_only {A} (P : event -> Prop) (c : M A) : Prop :=
  ∀ w, ∃ evs, trace (c w).2 = trace w ++ evs ∧ Forall P evs.

(** [keeps_transport c]: [c] hands the transport back as it found it. *)
Definition keeps_transport {A} (c : M A) : Prop :=
  ∀ w, transport (c w).2 = transport w.

(** The events of an operation that concerns the table [table_name] of
    the database [db] and nothing else: opening and closing the
    transport, fetching that table and submitting it. *)
Definition about (db table_name : string) (e : event) : Prop :=
  match e with
  | EvOpen | EvClose => True
  | EvGetTable d t | EvAlterTable d t _ => d = db ∧ t = table_name
  | _ => False
  end.

(** [one_shot c]: started with [keep_open] not set, [c] opens the
    transport, talks to the service and, when it returns, closes the
    transport; when it raises, the transport stays open. *)
Definition one_shot {A} (c : M A) : Prop :=
  ∀ w, pinned (transport w) = false ->
    ∃ evs, Forall remote evs
      ∧ match (c w).1 with
        | Ok _ =>
            trace (c w).2 = trace w ++ [EvOpen] ++ evs ++ [EvClose]
            ∧ transport (c w).2 = mkTransport false (keep_open (transport w))
        | Raise _ =>
            trace (c w).2 = trace w ++ [EvOpen] ++ evs
            ∧ transport (c w).2 = mkTransport true (keep_open (transport w))
        end.

(** The operations [ops] one after the other, up to the first that
    raises. *)
Definition run_all (ops : list (M unit)) : M unit :=
  foldr (fun op rest => op ;; rest) (ret tt) ops.

(** ** Batches and rows *)

(** The batches a cursor gets to see: those before the first empty
    one. *)
Fixpoint leading_batches (batches : list (list string)) : list (list string) :=
  match batches with
  | [] => []
  | [] :: _ => []
  | batch :: rest => batch :: leading_batches rest
  end.

(** A value with no tab in it. *)
Fixpoint tab_free (s : string) : bool :=
  match s with
  | EmptyString => true
  | String c s' => negb (Ascii.eqb c tab) && tab_free s'
  end.

(** The (name, type) pairs [get_columns] makes of a schema. *)
Definition column_pairs (cols : list FieldSchema) : list (string * string) :=
  map (fun col => (name col, type col)) cols.

(** * Properties *)

(** ** Scoped acquisition: [openclose] *)

Section Openclose.
Context {A : Type}.
Implicit Types (body : M A) (w : World).

Lemma openclose_pinned body w :
  pinned (transport w) = true ->
  pinned (transport (body w).2) = true ->
  openclose body w = body w.
Proof.
  intros Hw Hb. unfold openclose, contextmanager, unless_pinned.
  rewrite Hw. destruct (body w) as [[a|e] w2] eqn:E; simpl in *; [|done].
  by rewrite Hb.
Qed.

Lemma openclose_unpinned body w :
  pinned (transport w) = false ->
  openclose body w =
    match body (transport_open w).2 with
    | (Ok a, w2) =>
        if pinned (transport w2) then (Ok a, w2)
        else (Ok a, (transport_close w2).2)
    | (Raise e, w2) => (Raise e, w2)
    end.
Proof.
  intros Hw. unfold openclose, contextmanager, unless_pinned.
  rewrite Hw. simpl.
  destruct (body _) as [[a|e] w2]; [|done].
  by destruct (pinned (transport w2)).
Qed.
End Openclose.

Lemma transport_open_world w :
  (transport_open w).2 =
    mkWorld (mkTransport true (keep_open (transport w))) (server w)
            (trace w ++ [EvOpen]).
Proof. reflexivity. Qed.

Lemma transport_close_world w :
  (transport_close w).2 =
    mkWorld (mkTransport false (keep_open (transport w))) (server w)
            (trace w ++ [EvClose]).
Proof. reflexivity. Qed.

Lemma transport_open_run w :
  transport_open w =
    (Ok tt, mkWorld (mkTransport true (keep_open (transport w))) (server w)
                    (trace w ++ [EvOpen])).
Proof. reflexivity. Qed.

Lemma transport_close_run w :
  transport_close w =
    (Ok tt, mkWorld (mkTransport false (keep_open (transport w))) (server w)
                    (trace w ++ [EvClose])).
Proof. reflexivity. Qed.

Lemma session_enter_world w :
  session_enter w =
    (Ok tt, mkWorld open_pinned (server w) (trace w ++ [EvOpen])).
Proof. reflexivity. Qed.

Lemma session_exit_world w :
  session_exit w =
    (Ok tt, mkWorld closed_unpinned (server w) (trace w ++ [EvClose])).
Proof. reflexivity. Qed.

(** C2, as the code has it.  With [keep_open] not set, [openclose] opens
    the transport before the wrapped operation.  When the operation
    returns, the transport is closed after it; when the operation raises,
    the exception leaves the [with] block and the transport is left
    open: the close after the [yield] is not reached. *)
Theorem openclose_lifecycle {A} (body : M A) (w : World) (evs : list event) :
  pinned (transport w) = false ->
  emits body (transport_open w).2 evs ->
  match (body (transport_open w).2).1 with
  | Ok a =>
      (openclose body w).1 = Ok a
      ∧ trace (openclose body w).2 = trace w ++ [EvOpen] ++ evs ++ [EvClose]
      ∧ is_open (transport (openclose body w).2) = false
  | Raise e =>
      (openclose body w).1 = Raise e
      ∧ trace (openclose body w).2 = trace w ++ [EvOpen] ++ evs
      ∧ is_open (transport (openclose body w).2) = true
  end.
Proof.
  intros Hw [Htr Htp]. rewrite (openclose_unpinned body w Hw).
  destruct (body (transport_open w).2) as [[a|e] w2] eqn:E;
    cbn [fst snd] in *.
  - assert (pinned (transport w2) = false) as ->.
    { rewrite Htp. exact Hw. }
    rewrite transport_close_world. cbn [fst snd trace transport is_open].
    rewrite Htr, transport_open_world. cbn [trace].
    by rewrite <- !app_assoc.
  - rewrite Htr, Htp, transport_open_world. cbn [trace transport is_open].
    by rewrite <- !app_assoc.
Qed.

Lemma openclose_lifecycle_witness :
  pinned (transport closed_world) = false
  ∧ emits (Stub.get_table "default" "t") (transport_open closed_world).2
          [EvGetTable "default" "t"]
  ∧ (openclose (Stub.get_table "default" "t") closed_world).1
      = Ok (mkTable [mkFieldSchema "x" "int" ""])
  ∧ trace (openclose (Stub.get_table "default" "t") closed_world).2
      = [EvOpen; EvGetTable "default" "t"; EvClose]
  ∧ is_open (transport (openclose (Stub.get_table "default" "t") closed_world).2)
      = false.
Proof.
  split; [reflexivity|]. split; [split; reflexivity|].
  exact (openclose_lifecycle (Stub.get_table "default" "t") closed_world
           [EvGetTable "default" "t"] eq_refl (conj eq_refl eq_refl)).
Defined.

(** C2 fails as stated: [get_table] on a table the service does not have
    raises inside [openclose] with [keep_open] unset; the transport has
    been opened and is never closed. *)
Lemma openclose_raise_not_closed :
  pinned (transport closed_world) = false
  ∧ (get_table demo_client "missing" closed_world).1
      = Raise (HiveClientException ["Table missing does not exist"])
  ∧ trace (get_table demo_client "missing" closed_world).2
      = [EvOpen; EvGetTable "default" "missing"]
  ∧ closes (trace (get_table demo_client "missing" closed_world).2) = 0
  ∧ is_open (transport (get_table demo_client "missing" closed_world).2) = true.
Proof. repeat split; vm_compute; reflexivity. Qed.

(** ** Sessions *)

(** C3, as the code has it.  [session] opens the transport and sets
    [keep_open] before the caller's block runs.  When the block returns,
    the transport is closed and [keep_open] is reset to false; when the
    block raises, the exception leaves the session with the transport
    still open and [keep_open] still true. *)
Theorem session_lifecycle {A} (body : M A) (w : World) (evs : list event) :
  emits body (session_enter w).2 evs ->
  transport (session_enter w).2 = open_pinned
  ∧ trace (session_enter w).2 = trace w ++ [EvOpen]
  ∧ match (body (session_enter w).2).1 with
    | Ok a =>
        (session body w).1 = Ok a
        ∧ trace (session body w).2 = trace w ++ [EvOpen] ++ evs ++ [EvClose]
        ∧ transport (session body w).2 = closed_unpinned
    | Raise e =>
        (session body w).1 = Raise e
        ∧ trace (session body w).2 = trace w ++ [EvOpen] ++ evs
        ∧ transport (session body w).2 = open_pinned
    end.
Proof.
  intros [Htr Htp]. do 2 (split; [reflexivity|]).
  unfold session, contextmanager. rewrite session_enter_world in *.
  cbn [fst snd] in *.
  destruct (body _) as [[a|e] w2] eqn:E; cbn [fst snd] in *.
  - rewrite session_exit_world. cbn [fst snd trace transport].
    rewrite Htr. cbn [trace]. by rewrite <- !app_assoc.
  - rewrite Htr, Htp. cbn [trace transport]. by rewrite <- !app_assoc.
Qed.

Lemma session_lifecycle_witness :
  emits (get_columns demo_client "t") (session_enter closed_world).2
        [EvGetTable "default" "t"]
  ∧ (session (get_columns demo_client "t") closed_world).1 = Ok [("x", "int")]
  ∧ trace (session (get_columns demo_client "t") closed_world).2
      = [EvOpen; EvGetTable "default" "t"; EvClose]
  ∧ transport (session (get_columns demo_client "t") closed_world).2
      = closed_unpinned.
Proof.
  split; [split; reflexivity|].
  exact (proj2 (proj2 (session_lifecycle (get_columns demo_client "t")
                         closed_world [EvGetTable "default" "t"]
                         (conj eq_refl eq_refl)))).
Defined.

(** C3 fails as stated: a block that raises inside a session leaves the
    transport open and [keep_open] true. *)
Lemma session_raise_not_released :
  (session (get_table demo_client "missing") closed_world).1
    = Raise (HiveClientException ["Table missing does not exist"])
  ∧ closes (trace (session (get_table demo_client "missing") closed_world).2) = 0
  ∧ is_open (transport (session (get_table demo_client "missing") closed_world).2)
      = true
  ∧ keep_open (transport (session (get_table demo_client "missing") closed_world).2)
      = Some true.
Proof. repeat split; vm_compute; reflexivity. Qed.

(** ** Construction *)

(** C8, as the code has it.  [__init__] starts from a closed transport,
    opens it once and asks once for the configured database.  When the
    database is there, it closes the transport and returns the client.
    When the lookup raises or returns nothing, the exception leaves the
    constructor, so that no client object comes into being, and the
    transport is left open. *)
Theorem init_checks_database (srv : Server) (d : string) :
  match databases srv d with
  | Ok true =>
      __init__ srv d =
        (Ok (mkHiveClient d),
         mkWorld (mkTransport false None) srv [EvOpen; EvGetDatabase d; EvClose])
  | Ok false =>
      __init__ srv d =
        (Raise AssertionError,
         mkWorld (mkTransport true None) srv [EvOpen; EvGetDatabase d])
  | Raise e =>
      __init__ srv d =
        (Raise e,
         mkWorld (mkTransport true None) srv [EvOpen; EvGetDatabase d])
  end.
Proof.
  cbv [__init__ openclose contextmanager unless_pinned bind
       Stub.get_database fresh_world fresh_transport log get_world pinned
       transport keep_open server trace].
  simpl. by destruct (databases srv d) as [[|]|e].
Qed.

(** C8 fails as stated: construction against a database the service does
    not have fails, as it should, but does not close the connection it
    opened. *)
Lemma init_absent_database_not_closed :
  (__init__ demo_server "nope").1
    = Raise (RemoteException "NoSuchObjectException")
  ∧ trace (__init__ demo_server "nope").2 = [EvOpen; EvGetDatabase "nope"]
  ∧ closes (trace (__init__ demo_server "nope").2) = 0
  ∧ is_open (transport (__init__ demo_server "nope").2) = true.
Proof. repeat split; vm_compute; reflexivity. Qed.

(** ** Operations that leave a pinned transport alone *)

Lemma remote_no_transitions evs :
  Forall remote evs -> opens evs = 0 ∧ closes evs = 0.
Proof.
  induction 1 as [|e evs [Ho Hc] _ [IHo IHc]]; [done|].
  unfold opens, closes in *. rewrite !filter_cons.
  by rewrite !decide_False.
Qed.

Section Quiet.
Context {A B : Type}.

Lemma quiet_ret (a : A) : quiet (ret a).
Proof. intros w _. split; [done|]. exists []. by rewrite app_nil_r. Qed.

Lemma quiet_raise (e : exn) : quiet (@raise A e).
Proof. intros w _. split; [done|]. exists []. by rewrite app_nil_r. Qed.

Lemma quiet_bind (c : M A) (k : A -> M B) :
  quiet c -> (∀ a, quiet (k a)) -> quiet (bind c k).
Proof.
  intros Hc Hk w Hw. unfold bind.
  destruct (Hc w Hw) as [Ht (evs & Htr & Hev)].
  destruct (c w) as [[a|e] w1]; simpl in *; [|eauto].
  assert (pinned (transport w1) = true) as Hw1 by by rewrite Ht.
  destruct (Hk a w1 Hw1) as [Ht' (evs' & Htr' & Hev')].
  split; [congruence|]. exists (evs ++ evs').
  rewrite Htr', Htr, <- app_assoc. split; [done|]. by apply Forall_app.
Qed.

Lemma quiet_try_except (body handler : M A) :
  quiet body -> quiet handler -> quiet (try_except body handler).
Proof.
  intros Hb Hh w Hw. unfold try_except.
  destruct (Hb w Hw) as [Ht (evs & Htr & Hev)].
  destruct (body w) as [[a|e] w1]; simpl in *; [eauto|].
  assert (pinned (transport w1) = true) as Hw1 by by rewrite Ht.
  destruct (Hh w1 Hw1) as [Ht' (evs' & Htr' & Hev')].
  split; [congruence|]. exists (evs ++ evs').
  rewrite Htr', Htr, <- app_assoc. split; [done|]. by apply Forall_app.
Qed.

(** A scoped acquisition nested in a pinned transport does nothing of
    its own. *)
Lemma quiet_openclose (body : M A) : quiet body -> quiet (openclose body).
Proof.
  intros Hb w Hw. destruct (Hb w Hw) as [Ht Hev].
  rewrite openclose_pinned; [done|done|by rewrite Ht].
Qed.
End Quiet.

Lemma quiet_log (e : event) : remote e -> quiet (log e).
Proof. intros He w _. split; [done|]. exists [e]. split; [done|]. by constructor. Qed.

Lemma quiet_get_world : quiet get_world.
Proof. intros w _. split; [done|]. exists []. by rewrite app_nil_r. Qed.

Lemma quiet_set_server (s : Server) : quiet (set_server s).
Proof. intros w _. split; [done|]. exists []. by rewrite app_nil_r. Qed.

Lemma quiet_py_assert (b : bool) : quiet (py_assert b).
Proof. destruct b; [apply quiet_ret | apply quiet_raise]. Qed.

Create HintDb quiet.
#[global] Hint Resolve quiet_ret quiet_raise quiet_get_world quiet_set_server
  quiet_py_assert quiet_openclose quiet_try_except : quiet.
#[global] Hint Extern 1 (quiet (log _)) =>
  apply quiet_log; split; discriminate : quiet.
#[global] Hint Extern 2 (quiet (bind _ _)) =>
  apply quiet_bind; [|intros ?] : quiet.
#[global] Hint Extern 3 (quiet (match ?x with _ => _ end)) =>
  destruct x : quiet.
#[global] Hint Extern 3 (quiet (if ?x then _ else _)) =>
  destruct x : quiet.

Ltac solve_quiet := repeat (progress (cbv zeta; auto with quiet)).

Lemma quiet_stub_get_database d : quiet (Stub.get_database d).
Proof. unfold Stub.get_database. solve_quiet. Qed.

Lemma quiet_stub_get_table d t : quiet (Stub.get_table d t).
Proof. unfold Stub.get_table. solve_quiet. Qed.

Lemma quiet_stub_alter_table d t tbl : quiet (Stub.alter_table d t tbl).
Proof. unfold Stub.alter_table. solve_quiet. Qed.

Lemma quiet_stub_execute q : quiet (Stub.execute q).
Proof. unfold Stub.execute. solve_quiet. Qed.

Lemma quiet_stub_getThriftSchema : quiet Stub.getThriftSchema.
Proof. unfold Stub.getThriftSchema. solve_quiet. Qed.

Lemma quiet_stub_fetchN n : quiet (Stub.fetchN n).
Proof. unfold Stub.fetchN. solve_quiet. Qed.

#[global] Hint Resolve quiet_stub_get_database quiet_stub_get_table
  quiet_stub_alter_table quiet_stub_execute quiet_stub_getThriftSchema
  quiet_stub_fetchN : quiet.

Lemma quiet_get_table self t : quiet (get_table self t).
Proof. unfold get_table. solve_quiet. Qed.

Lemma quiet_get_columns self t : quiet (get_columns self t).
Proof. unfold get_columns. solve_quiet. Qed.

Lemma quiet_add_column self t c ty cm : quiet (add_column self t c ty cm).
Proof. unfold add_column. solve_quiet. Qed.

Lemma quiet_remove_column self t c : quiet (remove_column self t c).
Proof. unfold remove_column. solve_quiet. Qed.

Lemma quiet_alter_loop self t ty refs tbl : quiet (alter_loop self t ty refs tbl).
Proof. revert tbl. induction refs as [|i refs IH]; intros tbl; simpl; solve_quiet. Qed.

Lemma quiet_alter_column_type self t c ty cm :
  quiet (alter_column_type self t c ty cm).
Proof.
  unfold alter_column_type. pose proof quiet_alter_loop. solve_quiet.
Qed.

#[global] Hint Resolve quiet_get_table quiet_get_columns quiet_add_column
  quiet_remove_column quiet_alter_column_type : quiet.

(** ** Scoped acquisitions inside a session *)

Lemma quiet_scoped_calls ops : Forall quiet ops -> quiet (scoped_calls ops).
Proof. induction 1; simpl; solve_quiet. Qed.

Lemma session_unfold {A} (body : M A) (w : World) :
  session body w =
    match body (session_enter w).2 with
    | (Ok a, w2) => (Ok a, (session_exit w2).2)
    | (Raise e, w2) => (Raise e, w2)
    end.
Proof.
  unfold session, contextmanager. rewrite session_enter_world.
  cbn [snd]. destruct (body _) as [[a|e] w2]; [|done].
  by rewrite session_exit_world.
Qed.

(** C6, as the code has it.  Inside a session every scoped acquisition,
    however many there are, opens and closes nothing, and the transport
    is open and pinned after each of them.  When the block returns, the
    session has opened once and closes once, at its end; when an
    operation raises, the session ends without any close, the transport
    still open and pinned. *)
Theorem session_nested_scopes (ops : list (M unit)) (w : World) :
  Forall quiet ops ->
  (∀ n, transport (scoped_calls (take n ops) (session_enter w).2).2
          = open_pinned)
  ∧ ∃ evs, opens evs = 0 ∧ closes evs = 0
    ∧ match (session (scoped_calls ops) w).1 with
      | Ok _ =>
          trace (session (scoped_calls ops) w).2
            = trace w ++ [EvOpen] ++ evs ++ [EvClose]
          ∧ transport (session (scoped_calls ops) w).2 = closed_unpinned
      | Raise _ =>
          trace (session (scoped_calls ops) w).2 = trace w ++ [EvOpen] ++ evs
          ∧ transport (session (scoped_calls ops) w).2 = open_pinned
      end.
Proof.
  intros Hops. split.
  - intros n.
    assert (quiet (scoped_calls (take n ops))) as Hq.
    { apply quiet_scoped_calls. by apply Forall_take. }
    by destruct (Hq (session_enter w).2 eq_refl) as [-> _].
  - destruct (quiet_scoped_calls ops Hops (session_enter w).2 eq_refl)
      as [Ht (evs & Htr & Hev)].
    exists evs. destruct (remote_no_transitions evs Hev) as [-> ->].
    do 2 (split; [done|]). rewrite session_unfold.
    destruct (scoped_calls ops _) as [[a|e] w2]; cbn [fst snd] in *.
    + rewrite session_exit_world. cbn [trace transport]. rewrite Htr.
      rewrite session_enter_world. cbn [snd trace].
      by rewrite <- !app_assoc.
    + rewrite Htr, Ht, session_enter_world. cbn [snd trace transport].
      by rewrite <- !app_assoc.
Qed.

Lemma session_nested_scopes_witness :
  Forall quiet demo_block
  ∧ trace (session (scoped_calls demo_block) closed_world).2
      = [EvOpen;
         EvGetTable "default" "t";
         EvGetTable "default" "t";
         EvAlterTable "default" "t"
           (mkTable [mkFieldSchema "x" "int" ""; mkFieldSchema "y" "string" ""]);
         EvGetTable "default" "t";
         EvAlterTable "default" "t"
           (mkTable [mkFieldSchema "x" "int" ""; mkFieldSchema "y" "bigint" ""]);
         EvClose]
  ∧ ∃ evs, opens evs = 0 ∧ closes evs = 0
      ∧ trace (session (scoped_calls demo_block) closed_world).2
          = [EvOpen] ++ evs ++ [EvClose].
Proof.
  assert (Forall quiet demo_block) as Hq.
  { unfold demo_block. repeat (constructor; [solve [solve_quiet]|]). constructor. }
  split; [exact Hq|]. split; [vm_compute; reflexivity|].
  destruct (session_nested_scopes demo_block closed_world Hq)
    as [_ (evs & Ho & Hc & H)].
  exists evs. do 2 (split; [done|]).
  change ((session (scoped_calls demo_block) closed_world).1) with (Ok tt) in H.
  exact (proj1 H).
Defined.

(** C6 fails as stated: when an operation inside the session raises, the
    session ends with no close at all. *)
Lemma session_raise_never_closes :
  (session (scoped_calls [alter_column_type demo_client "t" "nope" "int" ""])
           closed_world).1
    = Raise (HiveClientException
               ["Table %s does not have column %s"; "t"; "nope"])
  ∧ closes (trace (session (scoped_calls
              [alter_column_type demo_client "t" "nope" "int" ""])
              closed_world).2) = 0
  ∧ transport (session (scoped_calls
              [alter_column_type demo_client "t" "nope" "int" ""])
              closed_world).2 = open_pinned.
Proof. repeat split; vm_compute; reflexivity. Qed.

(** ** Running a scoped operation *)

Lemma submitted_app evs1 evs2 :
  submitted (evs1 ++ evs2) = submitted evs1 ++ submitted evs2.
Proof. apply omap_app. Qed.

Lemma submitted_alter_tables d t (tbls : list Table) :
  submitted (map (EvAlterTable d t) tbls) = tbls.
Proof. induction tbls as [|tbl tbls IH]; [done|]. simpl. by rewrite IH. Qed.

Lemma entered_server w : server (entered w) = server w.
Proof. unfold entered, unless_pinned. by destruct (pinned (transport w)). Qed.

Lemma entered_submitted w :
  submitted (trace (entered w)) = submitted (trace w).
Proof.
  unfold entered, unless_pinned. destruct (pinned (transport w)); [done|].
  rewrite transport_open_world. cbn [trace].
  by rewrite submitted_app, app_nil_r.
Qed.

(** What a scoped operation returns, what it leaves on the service and
    what it submitted, from a run of its body that appends [evs] to the
    trace and leaves the transport alone. *)
Lemma openclose_run {A} (body : M A) (w : World) (r : result A)
    (srv' : Server) (evs : list event) :
  body (entered w)
    = (r, mkWorld (transport (entered w)) srv' (trace (entered w) ++ evs)) ->
  (openclose body w).1 = r
  ∧ server (openclose body w).2 = srv'
  ∧ submitted (trace (openclose body w).2)
      = submitted (trace w) ++ submitted evs.
Proof.
  intros Hb. rewrite <- (entered_submitted w). revert Hb.
  unfold entered, openclose, contextmanager, unless_pinned.
  destruct (pinned (transport w)) eqn:Hp; cbn [snd].
  - intros ->. destruct r; cbn [transport]; rewrite ?Hp;
      cbn [fst snd server trace]; by rewrite submitted_app.
  - rewrite transport_open_run. cbn [snd]. intros ->.
    destruct r; cbn [transport]; [|cbn [fst snd server trace];
                                   by rewrite submitted_app].
    replace (pinned _) with false by done.
    rewrite transport_close_run. cbn [fst snd server trace].
    by rewrite !submitted_app, app_nil_r.
Qed.

Lemma stub_get_table_found d t tbl w :
  tables (server w) !! (d, t) = Some tbl ->
  Stub.get_table d t w
    = (Ok tbl, mkWorld (transport w) (server w) (trace w ++ [EvGetTable d t])).
Proof.
  intros H. unfold Stub.get_table, bind, log, get_world. cbn. by rewrite H.
Qed.

Lemma stub_alter_table_run d t tbl w :
  Stub.alter_table d t tbl w
    = (Ok tt,
       mkWorld (transport w) (put_table (server w) d t tbl)
               (trace w ++ [EvAlterTable d t tbl])).
Proof. reflexivity. Qed.

(** ** [remove_column] *)

(** The guard of [remove_column] compares [len(filtered) - 1] with the
    original length; filtering never lengthens a list, so the guard is
    false for every table and every column name. *)
Lemma remove_column_guard (cols : list FieldSchema) (column_name : string) :
  (Z.of_nat (length (filter (fun col => name col ≠ column_name) cols)) - 1
   =? Z.of_nat (length cols))%Z = false.
Proof.
  apply Z.eqb_neq.
  pose proof (length_filter (fun col => name col ≠ column_name) cols). lia.
Qed.

(** X15.  Whatever the table holds, [remove_column] raises and submits
    nothing: the service is left as it was. *)
Lemma remove_column_never_submits self table_name column_name tbl w :
  tables (server w) !! (db self, table_name) = Some tbl ->
  (remove_column self table_name column_name w).1
    = Raise (HiveClientException
               ["Table " +:+ table_name +:+ " does not have column "
                  +:+ column_name])
  ∧ server (remove_column self table_name column_name w).2 = server w
  ∧ submitted (trace (remove_column self table_name column_name w).2)
      = submitted (trace w).
Proof.
  intros Ht. unfold remove_column.
  match goal with
  | |- context [openclose ?body w] =>
      destruct (openclose_run body w
                  (Raise (HiveClientException
                     ["Table " +:+ table_name +:+ " does not have column "
                        +:+ column_name]))
                  (server w) [EvGetTable (db self) table_name])
        as (-> & -> & ->)
  end.
  - unfold bind.
    rewrite (stub_get_table_found _ _ tbl) by by rewrite entered_server.
    cbn [sd_cols]. by rewrite remove_column_guard, entered_server.
  - by rewrite app_nil_r.
Qed.

(** C4, the code at the failing input: removing the column [x] that
    table [t] does have raises the column-not-found exception, submits
    no schema and leaves the table as it was. *)
Theorem remove_column_existing_raises :
  tables (server closed_world) !! ("default", "t")
    = Some (mkTable [mkFieldSchema "x" "int" ""])
  ∧ (remove_column demo_client "t" "x" closed_world).1
      = Raise (HiveClientException ["Table t does not have column x"])
  ∧ submitted (trace (remove_column demo_client "t" "x" closed_world).2) = []
  ∧ tables (server (remove_column demo_client "t" "x" closed_world).2)
      !! ("default", "t")
      = Some (mkTable [mkFieldSchema "x" "int" ""]).
Proof. repeat split; vm_compute; reflexivity. Qed.

(** ** [add_column] *)

(** A column name is a [str] and the columns are [FieldSchema] objects:
    the membership test of [add_column] never succeeds. *)
Lemma column_name_not_in_cols (column_name : string) (cols : list FieldSchema) :
  py_in (PyStr column_name) (map PyFieldSchema cols) = false.
Proof. induction cols as [|col cols IH]; [done|]. simpl. exact IH. Qed.

(** X14.  Whatever the table holds, [add_column] appends the new column
    and submits the result, also when a column of that name is there. *)
Lemma add_column_always_appends self table_name column_name data_type cm tbl w :
  tables (server w) !! (db self, table_name) = Some tbl ->
  (add_column self table_name column_name data_type cm w).1 = Ok tt
  ∧ submitted (trace (add_column self table_name column_name data_type cm w).2)
      = submitted (trace w)
          ++ [mkTable (sd_cols tbl
                         ++ [mkFieldSchema column_name data_type cm])].
Proof.
  intros Ht. unfold add_column.
  set (tbl' := mkTable (sd_cols tbl ++ [mkFieldSchema column_name data_type cm])).
  match goal with
  | |- context [openclose ?body w] =>
      destruct (openclose_run body w (Ok tt)
                   (put_table (server w) (db self) table_name tbl')
                   [EvGetTable (db self) table_name;
                    EvAlterTable (db self) table_name tbl'])
        as (-> & _ & ->)
  end; [|done].
  unfold bind.
  rewrite (stub_get_table_found _ _ tbl) by by rewrite entered_server.
  rewrite column_name_not_in_cols, stub_alter_table_run.
  cbn [trace transport server]. by rewrite <- app_assoc, entered_server.
Qed.

(** C5, the code at the failing input, following the example of the
    specification: on a table of columns [x : int], adding [y : string]
    submits [x; y]; adding [y] again does not fail but submits a schema
    with the column twice. *)
Theorem add_column_twice_submits_duplicate :
  ((add_column demo_client "t" "y" "string" "" ;;
    add_column demo_client "t" "y" "string" "") closed_world).1 = Ok tt
  ∧ submitted (trace ((add_column demo_client "t" "y" "string" "" ;;
                       add_column demo_client "t" "y" "string" "")
                        closed_world).2)
      = [ mkTable [mkFieldSchema "x" "int" ""; mkFieldSchema "y" "string" ""];
          mkTable [mkFieldSchema "x" "int" ""; mkFieldSchema "y" "string" "";
                   mkFieldSchema "y" "string" ""] ].
Proof. split; vm_compute; reflexivity. Qed.

(** ** [alter_column_type] *)

Lemma to_alter_spec cn dt col :
  to_alter cn dt col = true ↔ name col = cn ∧ type col ≠ dt.
Proof.
  unfold to_alter. rewrite andb_true_iff, negb_true_iff.
  by rewrite String.eqb_eq, String.eqb_neq.
Qed.

Lemma elem_of_columns_to_alter cols cn dt i :
  i ∈ columns_to_alter cols cn dt
  ↔ ∃ col, cols !! i = Some col ∧ name col = cn ∧ type col ≠ dt.
Proof.
  unfold columns_to_alter. rewrite list_elem_of_filter, elem_of_seq.
  split.
  - intros [H _]. destruct (cols !! i) as [col|]; [|done].
    exists col. split; [done|]. apply to_alter_spec. by apply Is_true_true.
  - intros (col & Hi & Hc). rewrite Hi. split.
    + apply Is_true_true. by apply to_alter_spec.
    + apply lookup_lt_Some in Hi. lia.
Qed.

Lemma set_type_same dt col : type col = dt -> set_type dt col = col.
Proof. destruct col. simpl. by intros ->. Qed.

Lemma foldl_alter_lookup dt (refs : list nat) (cols : list FieldSchema) j :
  foldl (fun c i => alter (set_type dt) i c) cols refs !! j
  = (if decide (j ∈ refs) then set_type dt else id) <$> cols !! j.
Proof.
  revert cols. induction refs as [|i refs IH]; intros cols; cbn [foldl].
  - rewrite decide_False by apply not_elem_of_nil. by rewrite option_fmap_id.
  - rewrite IH. destruct (decide (j = i)) as [->|Hne].
    + rewrite list_lookup_alter_eq, (decide_True (P := i ∈ i :: refs))
        by apply list_elem_of_here.
      destruct (cols !! i) as [col|]; simpl; [|done].
      by destruct (decide (i ∈ refs)).
    + rewrite list_lookup_alter_ne by done.
      destruct (decide (j ∈ refs)) as [Hin|Hnin].
      * by rewrite decide_True by by apply list_elem_of_further.
      * rewrite decide_False; [done|].
        by intros [?|?]%elem_of_cons.
Qed.

(** When the loop is over, every column of the name has the new type and
    nothing else has changed. *)
Lemma alter_all_retypes cols cn dt :
  foldl (fun c i => alter (set_type dt) i c) cols (columns_to_alter cols cn dt)
  = map (retype cn dt) cols.
Proof.
  apply list_eq. intros j. rewrite foldl_alter_lookup, list_lookup_fmap.
  destruct (cols !! j) as [col|] eqn:Hj; [|done]. simpl. f_equal.
  unfold retype. destruct (decide _) as [Hin|Hnin].
  - apply elem_of_columns_to_alter in Hin as (col' & Hj' & Hn & _).
    assert (col' = col) as -> by congruence.
    by rewrite (proj2 (String.eqb_eq _ _) Hn).
  - destruct (String.eqb (name col) cn) eqn:Hn; [|done].
    apply String.eqb_eq in Hn. simpl.
    destruct (decide (type col = dt)) as [Ht|Ht].
    + by rewrite set_type_same.
    + destruct Hnin. apply elem_of_columns_to_alter. eauto.
Qed.

Lemma snapshots_last dt refs cols :
  refs ≠ [] ->
  ∃ earlier,
    snapshots dt refs cols
      = earlier ++ [mkTable (foldl (fun c i => alter (set_type dt) i c) cols refs)]
    ∧ S (length earlier) = length refs.
Proof.
  revert cols. induction refs as [|i refs IH]; intros cols Hne; [done|].
  cbn [snapshots foldl]. destruct refs as [|i' refs].
  - by exists [].
  - destruct (IH (alter (set_type dt) i cols)) as (earlier & -> & Hlen); [done|].
    exists (mkTable (alter (set_type dt) i cols) :: earlier).
    split; [done|]. simpl in *. lia.
Qed.

(** With distinct column names at most one column is altered. *)
Lemma columns_to_alter_unique cols cn dt :
  NoDup (map name cols) -> (length (columns_to_alter cols cn dt) ≤ 1)%nat.
Proof.
  intros Hnd.
  assert (NoDup (columns_to_alter cols cn dt)) as Hrefs.
  { unfold columns_to_alter. apply NoDup_filter, NoDup_seq. }
  assert (∀ i j, i ∈ columns_to_alter cols cn dt ->
                 j ∈ columns_to_alter cols cn dt -> i = j) as Hsame.
  { intros i j (ci & Hi & Hni & _)%elem_of_columns_to_alter
                (cj & Hj & Hnj & _)%elem_of_columns_to_alter.
    apply (NoDup_lookup (map name cols) i j cn); [done| |].
    - by rewrite list_lookup_fmap, Hi; simpl; rewrite Hni.
    - by rewrite list_lookup_fmap, Hj; simpl; rewrite Hnj. }
  destruct (columns_to_alter cols cn dt) as [|i [|j refs]]; simpl; [lia|lia|].
  apply NoDup_cons in Hrefs as [Hnin _]. destruct Hnin.
  rewrite (Hsame i j); [apply list_elem_of_here| apply list_elem_of_here|].
  apply list_elem_of_further, list_elem_of_here.
Qed.

Lemma alter_loop_run self t dt refs tbl w :
  ∃ srv',
    alter_loop self t dt refs tbl w
    = (Ok tt,
       mkWorld (transport w) srv'
         (trace w ++ map (EvAlterTable (db self) t)
                         (snapshots dt refs (sd_cols tbl)))).
Proof.
  revert tbl w. induction refs as [|i refs IH]; intros tbl w.
  - exists (server w). cbn. rewrite app_nil_r. by destruct w.
  - cbn [alter_loop snapshots]. unfold bind.
    rewrite stub_alter_table_run.
    destruct (IH (mkTable (alter (set_type dt) i (sd_cols tbl)))
                 (mkWorld (transport w)
                    (put_table (server w) (db self) t
                       (mkTable (alter (set_type dt) i (sd_cols tbl))))
                    (trace w ++ [EvAlterTable (db self) t
                       (mkTable (alter (set_type dt) i (sd_cols tbl)))])))
      as (srv' & ->).
    exists srv'. cbn [transport trace sd_cols map].
    by rewrite <- app_assoc.
Qed.

(** [alter_column_type] on a table the service has, from a run of what
    follows the fetch of the table. *)
Lemma alter_column_type_run self table_name column_name data_type cm tbl w
    (r : result unit) (srv' : Server) (evs : list event) :
  tables (server w) !! (db self, table_name) = Some tbl ->
  (if bool_decide (column_name ∉ map name (sd_cols tbl))
   then raise (HiveClientException
                 ["Table %s does not have column %s"; table_name; column_name])
   else alter_loop self table_name data_type
          (columns_to_alter (sd_cols tbl) column_name data_type) tbl)
    (mkWorld (transport (entered w)) (server w)
             (trace (entered w) ++ [EvGetTable (db self) table_name]))
  = (r, mkWorld (transport (entered w)) srv'
                (trace (entered w) ++ EvGetTable (db self) table_name :: evs)) ->
  (alter_column_type self table_name column_name data_type cm w).1 = r
  ∧ submitted (trace (alter_column_type self table_name column_name
                        data_type cm w).2)
      = submitted (trace w) ++ submitted evs.
Proof.
  intros Ht Hbody. unfold alter_column_type.
  match goal with
  | |- context [openclose ?body w] =>
      destruct (openclose_run body w r srv'
                  (EvGetTable (db self) table_name :: evs)) as (-> & _ & ->)
  end; [|done].
  unfold bind.
  rewrite (stub_get_table_found _ _ tbl) by by rewrite entered_server.
  rewrite entered_server. exact Hbody.
Qed.

(** C7.  For a table the service has: when no column bears the name,
    [alter_column_type] raises the column-not-found exception and submits
    nothing; when the name is there and already has the requested type,
    it returns without a single submit; when a column of the name has
    another type, it returns after submitting the schema in which that
    column has the requested type and all else is unchanged, which with
    distinct column names is its only submit. *)
Theorem alter_column_type_cases self table_name column_name data_type cm tbl w :
  tables (server w) !! (db self, table_name) = Some tbl ->
  (column_name ∉ map name (sd_cols tbl) ->
     (alter_column_type self table_name column_name data_type cm w).1
       = Raise (HiveClientException
                  ["Table %s does not have column %s"; table_name; column_name])
     ∧ submitted (trace (alter_column_type self table_name column_name
                           data_type cm w).2)
         = submitted (trace w))
  ∧ (column_name ∈ map name (sd_cols tbl) ->
     (∀ col, col ∈ sd_cols tbl -> name col = column_name ->
             type col = data_type) ->
     (alter_column_type self table_name column_name data_type cm w).1 = Ok tt
     ∧ submitted (trace (alter_column_type self table_name column_name
                           data_type cm w).2)
         = submitted (trace w))
  ∧ (∀ col, col ∈ sd_cols tbl -> name col = column_name ->
            type col ≠ data_type ->
     (alter_column_type self table_name column_name data_type cm w).1 = Ok tt
     ∧ ∃ earlier,
         submitted (trace (alter_column_type self table_name column_name
                             data_type cm w).2)
           = submitted (trace w) ++ earlier
               ++ [mkTable (map (retype column_name data_type) (sd_cols tbl))]
         ∧ (NoDup (map name (sd_cols tbl)) -> earlier = [])).
Proof.
  intros Ht.
  pose proof (alter_column_type_run self table_name column_name data_type cm
                tbl w) as Hrun.
  set (refs := columns_to_alter (sd_cols tbl) column_name data_type) in *.
  split; [|split].
  - intros Habs. rewrite <- (app_nil_r (submitted (trace w))).
    apply (Hrun _ (server w) []); [done|]. by rewrite bool_decide_true.
  - intros Hin Hsame. rewrite <- (app_nil_r (submitted (trace w))).
    assert (refs = []) as Hrefs.
    { apply elem_of_nil_inv.
      intros i (col & Hi & Hn & Hty)%elem_of_columns_to_alter.
      apply Hty, Hsame; [|done]. by eapply list_elem_of_lookup_2. }
    apply (Hrun _ (server w) []); [done|].
    rewrite bool_decide_false by by intros []. by rewrite Hrefs.
  - intros col Hcol Hn Hty.
    assert (refs ≠ []) as Hrefs.
    { apply list_elem_of_lookup_1 in Hcol as [i Hi].
      assert (i ∈ refs) as Hin by (apply elem_of_columns_to_alter; eauto).
      intros E. rewrite E in Hin. by apply elem_of_nil in Hin. }
    destruct (snapshots_last data_type refs (sd_cols tbl) Hrefs)
      as (earlier & Hsnap & Hlen).
    destruct (alter_loop_run self table_name data_type refs tbl
                (mkWorld (transport (entered w)) (server w)
                   (trace (entered w) ++ [EvGetTable (db self) table_name])))
      as (srv' & Hloop).
    cbn [transport trace] in Hloop. rewrite <- app_assoc in Hloop.
    destruct (Hrun (Ok tt) srv'
                (map (EvAlterTable (db self) table_name)
                     (snapshots data_type refs (sd_cols tbl))) Ht)
      as [Hres Hsub].
    { rewrite bool_decide_false; [exact Hloop|].
      intros Hnin. apply Hnin, list_elem_of_fmap. eauto. }
    split; [exact Hres|]. exists earlier. split.
    + rewrite Hsub, submitted_alter_tables, Hsnap. unfold refs.
      by rewrite alter_all_retypes.
    + intros Hnd.
      pose proof (columns_to_alter_unique (sd_cols tbl) column_name data_type
                    Hnd) as Hone.
      fold refs in Hone. destruct earlier; [done|]. simpl in Hlen. lia.
Qed.

Lemma alter_column_type_cases_witness :
  tables (server closed_world) !! (db demo_client, "t")
    = Some (mkTable [mkFieldSchema "x" "int" ""])
  ∧ (alter_column_type demo_client "t" "y" "string" "" closed_world).1
      = Raise (HiveClientException
                 ["Table %s does not have column %s"; "t"; "y"])
  ∧ submitted (trace (alter_column_type demo_client "t" "y" "string" ""
                        closed_world).2) = []
  ∧ (alter_column_type demo_client "t" "x" "int" "" closed_world).1 = Ok tt
  ∧ submitted (trace (alter_column_type demo_client "t" "x" "int" ""
                        closed_world).2) = []
  ∧ (alter_column_type demo_client "t" "x" "bigint" "" closed_world).1 = Ok tt
  ∧ submitted (trace (alter_column_type demo_client "t" "x" "bigint" ""
                        closed_world).2)
      = [mkTable [mkFieldSchema "x" "bigint" ""]].
Proof.
  assert (tables (server closed_world) !! (db demo_client, "t")
          = Some (mkTable [mkFieldSchema "x" "int" ""])) as Ht
    by (vm_compute; reflexivity).
  split; [exact Ht|].
  destruct (alter_column_type_cases demo_client "t" "y" "string" "" _
              closed_world Ht) as (Habsent & _ & _).
  destruct Habsent as [Hr0 Hs0].
  { cbn. intros Hin%list_elem_of_singleton. discriminate Hin. }
  destruct (alter_column_type_cases demo_client "t" "x" "int" "" _
              closed_world Ht) as (_ & Hsame & _).
  destruct (alter_column_type_cases demo_client "t" "x" "bigint" "" _
              closed_world Ht) as (_ & _ & Hdiff).
  destruct Hsame as [Hr1 Hs1].
  { cbn. by apply list_elem_of_here. }
  { cbn. intros col ->%list_elem_of_singleton _. reflexivity. }
  destruct (Hdiff (mkFieldSchema "x" "int" "")) as (Hr2 & earlier & Hs2 & Hnd).
  { cbn. by apply list_elem_of_here. }
  { reflexivity. }
  { discriminate. }
  rewrite Hnd in Hs2.
  2:{ cbn. apply NoDup_singleton. }
  repeat split; assumption.
Defined.

(** ** The result cursor *)

Lemma stub_execute_ok q schema batches w :
  run_query (server w) q = Ok (schema, batches) ->
  Stub.execute q w
    = (Ok tt, mkWorld (transport w) (with_result (server w) schema batches)
                      (trace w ++ [EvExecute q])).
Proof.
  intros H. unfold Stub.execute, bind, log, get_world. cbn. by rewrite H.
Qed.

Lemma stub_execute_raise q e w :
  run_query (server w) q = Raise e ->
  Stub.execute q w
    = (Raise e, mkWorld (transport w) (server w) (trace w ++ [EvExecute q])).
Proof.
  intros H. unfold Stub.execute, bind, log, get_world. cbn. by rewrite H.
Qed.

Lemma stub_getThriftSchema_run w :
  Stub.getThriftSchema w
    = (Ok (cur_schema (server w)),
       mkWorld (transport w) (server w) (trace w ++ [EvGetThriftSchema])).
Proof. reflexivity. Qed.

Lemma stub_fetchN_nil n w :
  cur_batches (server w) = [] ->
  Stub.fetchN n w
    = (Ok [], mkWorld (transport w) (server w) (trace w ++ [EvFetchN n])).
Proof.
  intros H. unfold Stub.fetchN, bind, log, get_world. cbn. by rewrite H.
Qed.

Lemma stub_fetchN_cons n rows rest w :
  cur_batches (server w) = rows :: rest ->
  Stub.fetchN n w
    = (Ok rows,
       mkWorld (transport w)
         (with_result (server w) (cur_schema (server w)) rest)
         (trace w ++ [EvFetchN n])).
Proof.
  intros H. unfold Stub.fetchN, bind, log, get_world. cbn. by rewrite H.
Qed.

(** The start of the generator body, up to the first fetch. *)
Lemma next_created_ok q schema batches w :
  run_query (server w) q = Ok (schema, batches) ->
  next (GenCreated q) w
    = fetch_step (map name schema)
        (mkWorld (transport (entered w))
                 (with_result (server w) schema batches)
                 (trace (entered w) ++ [EvExecute q; EvGetThriftSchema])).
Proof.
  intros Hq. unfold next, bind, entered.
  destruct (unless_pinned transport_open w) as [[[]|e] w1] eqn:E.
  2:{ unfold unless_pinned in E. by destruct (pinned (transport w)). }
  assert (server w1 = server w) as Hs.
  { unfold unless_pinned in E.
    destruct (pinned (transport w)); by injection E as <-. }
  cbn [snd].
  rewrite (stub_execute_ok q schema batches) by by rewrite Hs.
  rewrite stub_getThriftSchema_run. cbn [server transport trace with_result
    cur_schema ret]. by rewrite Hs, <- app_assoc.
Qed.

Lemma record_1_2 :
  make_record ["a"; "b"] (tsv ["1"; "2"]) = {[ "a" := "1"; "b" := "2" ]}.
Proof. vm_compute. reflexivity. Qed.

Lemma record_3_4 :
  make_record ["a"; "b"] (tsv ["3"; "4"]) = {[ "a" := "3"; "b" := "4" ]}.
Proof. vm_compute. reflexivity. Qed.

(** C1.  Against a service whose result has the fields [a], [b] and
    whose fetches answer first the batch of rows [1<tab>2], [3<tab>4] and
    then an empty batch, a consumer of [execute] receives the records
    [{a: 1, b: 2}] and [{a: 3, b: 4}] in this order and then the end of
    the iteration.  The trace shows the two fetches, both for 500 rows,
    and nothing fetched after the empty batch: whatever the service still
    held stays with it. *)
Theorem execute_two_rows_then_stop self q w schema rest fuel :
  run_query (server w) q
    = Ok (schema, [[tsv ["1"; "2"]; tsv ["3"; "4"]]; []] ++ rest) ->
  map name schema = ["a"; "b"] ->
  (3 ≤ fuel)%nat ->
  ∃ w',
    consume fuel (execute self q) w
      = Some ([ {[ "a" := "1"; "b" := "2" ]}; {[ "a" := "3"; "b" := "4" ]} ],
              Ok tt, GenFinished, w')
    ∧ trace w'
        = trace w ++ (if pinned (transport w) then [] else [EvOpen])
            ++ [EvExecute q; EvGetThriftSchema; EvFetchN 500; EvFetchN 500]
            ++ (if pinned (transport w) then [] else [EvClose])
    ∧ cur_batches (server w') = rest.
Proof.
  intros Hq Hnames Hfuel.
  destruct fuel as [|[|[|fuel]]]; [lia..|].
  unfold execute. cbn [consume].
  rewrite (next_created_ok _ _ _ _ Hq), Hnames.
  unfold fetch_step at 1.
  erewrite stub_fetchN_cons by reflexivity.
  cbn [next]. unfold fetch_step.
  erewrite stub_fetchN_cons by reflexivity.
  rewrite record_1_2, record_3_4.
  unfold entered, unless_pinned. cbn [transport trace server].
  destruct (pinned (transport w)) eqn:Hp; cbn [snd transport]; rewrite ?Hp.
  - eexists. split; [reflexivity|]. cbn [trace server cur_batches with_result].
    split; [|done]. by rewrite <- !app_assoc.
  - rewrite transport_open_run. cbn [snd transport].
    change (pinned (mkTransport true (keep_open (transport w))))
      with (pinned (transport w)).
    rewrite Hp, transport_close_run.
    eexists. split; [reflexivity|]. cbn [trace server cur_batches with_result].
    split; [|done]. by rewrite <- !app_assoc.
Qed.

Lemma execute_two_rows_then_stop_witness :
  run_query (server closed_world) "select a, b from t"
    = Ok ([mkFieldSchema "a" "string" ""; mkFieldSchema "b" "string" ""],
          [[tsv ["1"; "2"]; tsv ["3"; "4"]]; []] ++ [[tsv ["5"; "6"]]])
  ∧ (3 ≤ 7)%nat
  ∧ ∃ w',
      consume 7 (execute demo_client "select a, b from t") closed_world
        = Some ([ {[ "a" := "1"; "b" := "2" ]}; {[ "a" := "3"; "b" := "4" ]} ],
                Ok tt, GenFinished, w')
      ∧ trace w'
          = [EvOpen; EvExecute "select a, b from t"; EvGetThriftSchema;
             EvFetchN 500; EvFetchN 500; EvClose]
      ∧ cur_batches (server w') = [[tsv ["5"; "6"]]].
Proof.
  split; [reflexivity|]. split; [lia|].
  exact (execute_two_rows_then_stop demo_client "select a, b from t"
           closed_world _ [[tsv ["5"; "6"]]] 7 eq_refl eq_refl
           ltac:(lia)).
Defined.

(** *** What a suspended cursor holds *)

Lemma fetches_app evs1 evs2 : fetches (evs1 ++ evs2) = fetches evs1 ++ fetches evs2.
Proof. apply omap_app. Qed.

Lemma unless_pinned_close_run w :
  unless_pinned transport_close w
    = (Ok tt,
       mkWorld (if pinned (transport w) then transport w
                else mkTransport false (keep_open (transport w)))
               (server w)
               (trace w ++ (if pinned (transport w) then [] else [EvClose]))).
Proof.
  unfold unless_pinned. destruct (pinned (transport w)).
  - rewrite app_nil_r. by destruct w.
  - apply transport_close_run.
Qed.

Lemma unless_pinned_open_run w :
  unless_pinned transport_open w
    = (Ok tt,
       mkWorld (if pinned (transport w) then transport w
                else mkTransport true (keep_open (transport w)))
               (server w)
               (trace w ++ (if pinned (transport w) then [] else [EvOpen]))).
Proof.
  unfold unless_pinned. destruct (pinned (transport w)).
  - rewrite app_nil_r. by destruct w.
  - apply transport_open_run.
Qed.

(** One round of the loop: a fetch of 500 rows, then either the first
    record of the batch, the rest of it kept, or the end of the cursor
    when the batch is empty. *)
Lemma fetch_step_cases stypes w :
  (∃ row rows rest,
      cur_batches (server w) = (row :: rows) :: rest
      ∧ fetch_step stypes w
        = (Ok (Some (make_record stypes row)), GenSuspended stypes rows,
           mkWorld (transport w)
             (with_result (server w) (cur_schema (server w)) rest)
             (trace w ++ [EvFetchN 500])))
  ∨ (hd [] (cur_batches (server w)) = []
     ∧ ∃ w', fetch_step stypes w = (Ok None, GenFinished, w')
       ∧ trace w'
           = trace w ++ EvFetchN 500
               :: (if pinned (transport w) then [] else [EvClose])).
Proof.
  unfold fetch_step.
  destruct (cur_batches (server w)) as [|[|row rows] rest] eqn:Hb.
  - right. split; [done|]. rewrite (stub_fetchN_nil _ _ Hb).
    rewrite unless_pinned_close_run. eexists. split; [reflexivity|].
    cbn [trace transport]. by rewrite <- app_assoc.
  - right. split; [done|]. rewrite (stub_fetchN_cons _ _ _ _ Hb).
    rewrite unless_pinned_close_run. eexists. split; [reflexivity|].
    cbn [trace transport]. by rewrite <- app_assoc.
  - left. exists row, rows, rest. split; [done|].
    by rewrite (stub_fetchN_cons _ _ _ _ Hb).
Qed.

(** *** Shape of a record *)

Lemma dom_py_dict_from (d : gmap string string) pairs :
  dom (foldl (fun d kv => <[kv.1 := kv.2]> d) d pairs)
  = dom d ∪ list_to_set pairs.*1.
Proof.
  revert d. induction pairs as [|[k v] pairs IH]; intros d; simpl.
  - by rewrite union_empty_r_L.
  - rewrite IH, dom_insert_L.
    by rewrite (assoc_L (∪) (dom d)), (comm_L (∪) (dom d)).
Qed.

Lemma dom_py_dict pairs : dom (py_dict pairs) = list_to_set pairs.*1.
Proof.
  unfold py_dict. by rewrite dom_py_dict_from, dom_empty_L, union_empty_l_L.
Qed.

(** [zip] stops at the shorter of its arguments. *)
Lemma fst_zip_take (ks vs : list string) :
  (zip ks vs).*1 = take (length vs) ks.
Proof.
  revert vs. induction ks as [|k ks IH]; intros [|v vs]; simpl; try done.
  by rewrite IH.
Qed.

Lemma size_list_to_set_le (l : list string) :
  (size (list_to_set l : gset string) ≤ length l)%nat.
Proof.
  induction l as [|x l IH].
  - by rewrite list_to_set_nil, size_empty.
  - rewrite list_to_set_cons, size_union_alt, size_singleton. simpl.
    assert (size (list_to_set l ∖ {[x]} : gset string)
            ≤ size (list_to_set l : gset string))%nat as Hle.
    { apply subseteq_size, subseteq_difference_l. reflexivity. }
    lia.
Qed.

Lemma make_record_dom stypes row :
  dom (make_record stypes row)
  = list_to_set (take (length (split_tab row)) stypes).
Proof. unfold make_record. by rewrite dom_py_dict, fst_zip_take. Qed.

Lemma make_record_size_le stypes row :
  (size (make_record stypes row) ≤ length stypes)%nat.
Proof.
  rewrite <- size_dom, make_record_dom.
  etransitivity; [apply size_list_to_set_le|].
  rewrite length_take. lia.
Qed.

Lemma make_record_size stypes row :
  NoDup stypes ->
  size (make_record stypes row)
  = min (length stypes) (length (split_tab row)).
Proof.
  intros Hnd. rewrite <- size_dom, make_record_dom.
  rewrite size_list_to_set, length_take; [lia|].
  eapply sublist_NoDup; [exact Hnd|apply sublist_take].
Qed.

(** *** One [next] *)

Lemma next_created_raise q e w :
  run_query (server w) q = Raise e ->
  next (GenCreated q) w
    = (Raise e, GenFinished,
       mkWorld (transport (entered w)) (server w)
               (trace (entered w) ++ [EvExecute q])).
Proof.
  intros Hq. unfold next, bind, entered.
  rewrite unless_pinned_open_run. cbn [snd].
  by rewrite (stub_execute_raise q e) by done.
Qed.

Lemma entered_trace w :
  trace (entered w) = trace w ++ (if pinned (transport w) then [] else [EvOpen]).
Proof. unfold entered. by rewrite unless_pinned_open_run. Qed.

(** Everything one [next] does: what it appends to the trace, what it
    leaves in the buffer, and what it hands to the consumer. *)
Lemma next_spec gen w :
  ∃ evs,
    trace (next gen w).2 = trace w ++ evs
    ∧ (fetches evs = [] ∨ fetches evs = [500%Z])
    ∧ (buffered gen ≠ [] -> (next gen w).2 = w)
    ∧ buffered (next gen w).1.2 = tl (source gen w)
    ∧ match (next gen w).1.1 with
      | Ok (Some r) =>
          ∃ stypes row rows,
            field_names gen w = Some stypes
            ∧ (next gen w).1.2 = GenSuspended stypes rows
            ∧ source gen w = row :: rows
            ∧ r = make_record stypes row
      | _ => (next gen w).1.2 = GenFinished ∧ source gen w = []
      end.
Proof.
  destruct gen as [q|stypes [|row rows]|].
  - (* not started *)
    unfold source, next_batch. cbn [buffered field_names].
    destruct (run_query (server w) q) as [[schema batches]|e] eqn:Hq.
    + rewrite (next_created_ok _ _ _ _ Hq).
      set (w1 := mkWorld _ _ _).
      destruct (fetch_step_cases (map name schema) w1)
        as [(row & rows & rest & Hb & ->)|(Hb & w' & -> & Htr)];
        cbn [fst snd trace] in *; subst w1; cbn [server with_result
          cur_batches trace transport] in *; rewrite ?entered_trace in *.
      * eexists. split; [by rewrite <- !app_assoc|].
        split; [right; rewrite !fetches_app; by destruct (pinned _)|].
        split; [done|]. rewrite Hb. split; [done|].
        by exists (map name schema), row, rows.
      * eexists. split; [rewrite Htr; by rewrite <- !app_assoc|].
        split; [right; rewrite !fetches_app; cbn;
                by do 2 destruct (pinned _)|].
        split; [done|]. by rewrite Hb.
    + rewrite (next_created_raise _ _ _ Hq). cbn [fst snd trace].
      rewrite entered_trace. eexists.
      split; [by rewrite <- !app_assoc|].
      split; [left; rewrite !fetches_app; by destruct (pinned _)|].
      done.
  - (* suspended, batch used up *)
    unfold source, next_batch. cbn [buffered field_names next].
    destruct (fetch_step_cases stypes w)
      as [(row & rows & rest & Hb & ->)|(Hb & w' & -> & Htr)];
      cbn [fst snd trace] in *.
    + eexists. split; [done|]. split; [by right|]. split; [done|].
      rewrite Hb. split; [done|]. by exists stypes, row, rows.
    + eexists. split; [exact Htr|].
      split; [right; by destruct (pinned _)|]. split; [done|].
      by rewrite Hb.
  - (* suspended, rows in hand *)
    exists []. rewrite app_nil_r. cbn. split; [done|]. split; [by left|].
    split; [done|]. split; [done|]. by exists stypes, row, rows.
  - (* finished *)
    exists []. rewrite app_nil_r. cbn. by repeat split; try by left.
Qed.

(** C9, as the code has it.  The field names of a cursor are the same
    before and after every record it yields.  The record made from a row
    maps the leading field names to the tab-separated values of the row,
    position by position, as far as both reach: it never has more entries
    than there are field names, and with distinct field names it has as
    many entries as the smaller of the number of names and the number of
    values.  Values beyond the last name are dropped, and a row with
    fewer values than names gives a record with fewer entries than
    names. *)
Theorem yielded_record_shape gen w r gen' w' :
  next gen w = (Ok (Some r), gen', w') ->
  ∃ stypes row rows,
    field_names gen w = Some stypes
    ∧ gen' = GenSuspended stypes rows
    ∧ source gen w = row :: rows
    ∧ r = make_record stypes row
    ∧ dom r = list_to_set (take (length (split_tab row)) stypes)
    ∧ (size r ≤ length stypes)%nat
    ∧ (NoDup stypes ->
       size r = min (length stypes) (length (split_tab row))).
Proof.
  intros Hnext. destruct (next_spec gen w) as (_ & _ & _ & _ & _ & H).
  rewrite Hnext in H. cbn [fst snd] in H.
  destruct H as (stypes & row & rows & Hf & Hf' & Hsrc & ->).
  exists stypes, row, rows. do 4 (split; [done|]).
  split; [apply make_record_dom|].
  split; [apply make_record_size_le|apply make_record_size].
Qed.

Lemma yielded_record_shape_witness :
  next (execute demo_client "q") closed_world
    = (Ok (Some {[ "a" := "1"; "b" := "2" ]}),
       GenSuspended ["a"; "b"] [tsv ["3"; "4"]],
       (next (execute demo_client "q") closed_world).2)
  ∧ ∃ stypes row rows,
      field_names (execute demo_client "q") closed_world = Some stypes
      ∧ GenSuspended ["a"; "b"] [tsv ["3"; "4"]] = GenSuspended stypes rows
      ∧ source (execute demo_client "q") closed_world = row :: rows
      ∧ ({[ "a" := "1"; "b" := "2" ]} : gmap string string)
          = make_record stypes row
      ∧ dom ({[ "a" := "1"; "b" := "2" ]} : gmap string string)
          = list_to_set (take (length (split_tab row)) stypes)
      ∧ (size ({[ "a" := "1"; "b" := "2" ]} : gmap string string)
           ≤ length stypes)%nat
      ∧ (NoDup stypes ->
         size ({[ "a" := "1"; "b" := "2" ]} : gmap string string)
           = min (length stypes) (length (split_tab row))).
Proof.
  assert (next (execute demo_client "q") closed_world
          = (Ok (Some {[ "a" := "1"; "b" := "2" ]}),
             GenSuspended ["a"; "b"] [tsv ["3"; "4"]],
             (next (execute demo_client "q") closed_world).2)) as Hnext
    by (vm_compute; reflexivity).
  split; [exact Hnext|].
  exact (yielded_record_shape _ _ _ _ _ Hnext).
Defined.

(** C9 fails as stated: a row with fewer values than there are field
    names yields a record with fewer entries than field names. *)
Lemma short_row_short_record :
  field_names (execute demo_client "q") (fresh_world short_row_server)
    = Some ["a"; "b"]
  ∧ (next (execute demo_client "q") (fresh_world short_row_server)).1.1
      = Ok (Some {[ "a" := "1" ]})
  ∧ size ({[ "a" := "1" ]} : gmap string string) ≠ length ["a"; "b"].
Proof. split; [|split]; vm_compute; [reflexivity|reflexivity|discriminate]. Qed.

(** C10.  A generator fresh from [execute] holds no rows.  One [next]
    fetches at most once, always 500 rows, and only when the rows in hand
    are used up: with rows in hand it reaches neither the transport nor
    the service.  It takes one row off the front of its source, which is
    the batch in hand or else the single batch just fetched, so the
    buffer never holds more than the rest of one batch.  The generator
    only moves forward: when [next] does not yield, the generator is
    finished, and a finished generator answers every further [next] with
    the end of the iteration and touches nothing. *)
Theorem execute_lazy_forward_only self q gen w :
  buffered (execute self q) = []
  ∧ (∃ evs, trace (next gen w).2 = trace w ++ evs
            ∧ (fetches evs = [] ∨ fetches evs = [500%Z]))
  ∧ (buffered gen ≠ [] -> (next gen w).2 = w)
  ∧ buffered (next gen w).1.2 = tl (source gen w)
  ∧ match (next gen w).1.1 with
    | Ok (Some _) => True
    | _ => (next gen w).1.2 = GenFinished
    end
  ∧ next GenFinished w = (Ok None, GenFinished, w).
Proof.
  split; [done|].
  destruct (next_spec gen w) as (evs & Htr & Hf & Hw & Hb & H).
  split; [by exists evs|]. do 2 (split; [done|]).
  split; [|done].
  destruct ((next gen w).1.1) as [[r|]|e]; [done|apply H..].
Qed.

(** *** Consuming a cursor to its end *)

Lemma consume_yield fuel gen w r gen' w' :
  next gen w = (Ok (Some r), gen', w') ->
  consume (S fuel) gen w
  = match consume fuel gen' w' with
    | Some (rs, fin, gen'', w'') => Some (r :: rs, fin, gen'', w'')
    | None => None
    end.
Proof. intros H. cbn [consume]. by rewrite H. Qed.

Lemma consume_stop fuel gen w gen' w' :
  next gen w = (Ok None, gen', w') ->
  consume (S fuel) gen w = Some ([], Ok tt, gen', w').
Proof. intros H. cbn [consume]. by rewrite H. Qed.

(** The iteration always comes to an end: one call of [next] per row the
    service still holds, and one more, are enough. *)
Lemma consume_suspended_terminates stypes rows w :
  ∃ res,
    consume (S (length rows + sum_list (map length (cur_batches (server w)))))
            (GenSuspended stypes rows) w = Some res.
Proof.
  remember (cur_batches (server w)) as batches eqn:Hb.
  revert rows w Hb.
  induction batches as [|batch batches IH]; intros rows.
  - induction rows as [|row rows IHrows]; intros w Hb.
    + erewrite consume_stop; [eauto|]. cbn [next]. unfold fetch_step.
      rewrite stub_fetchN_nil by done. by rewrite unless_pinned_close_run.
    + cbn [length Nat.add]. erewrite consume_yield by reflexivity.
      destruct (IHrows w Hb) as [[[[rs fin] g] w'] ->]. eauto.
  - induction rows as [|row rows IHrows]; intros w Hb.
    + destruct batch as [|row rows].
      * erewrite consume_stop; [eauto|]. cbn [next]. unfold fetch_step.
        erewrite stub_fetchN_cons by done.
        by rewrite unless_pinned_close_run.
      * cbn [map sum_list length Nat.add]. erewrite consume_yield.
        2:{ cbn [next]. unfold fetch_step.
            erewrite stub_fetchN_cons by done. reflexivity. }
        edestruct (IH rows) as [[[[rs fin] g] w'] ->]; [|eauto].
        reflexivity.
    + cbn [length Nat.add]. erewrite consume_yield by reflexivity.
      destruct (IHrows w Hb) as [[[[rs fin] g] w'] ->]. eauto.
Qed.

Lemma consume_terminates gen w : ∃ fuel res, consume fuel gen w = Some res.
Proof.
  destruct gen as [q|stypes rows|].
  - destruct (next (GenCreated q) w) as [[[[r|]|e] gen'] w'] eqn:Hnext.
    + destruct (next_spec (GenCreated q) w) as (_ & _ & _ & _ & _ & H).
      rewrite Hnext in H. cbn [fst snd] in H.
      destruct H as (stypes & row & rows & _ & -> & _).
      destruct (consume_suspended_terminates stypes rows w')
        as [[[[rs fin] g] w''] Hc].
      eexists (S _), _. erewrite consume_yield by exact Hnext.
      by rewrite Hc.
    + exists 1, ([], Ok tt, gen', w'). by apply consume_stop.
    + exists 1, ([], Raise e, gen', w'). cbn [consume]. by rewrite Hnext.
  - destruct (consume_suspended_terminates stypes rows w) as [res Hc]. eauto.
  - by exists 1, ([], Ok tt, GenFinished, w).
Qed.

(** * Further properties of the client *)

(** ** The getters *)

Lemma stub_get_table_missing d t w :
  tables (server w) !! (d, t) = None ->
  Stub.get_table d t w
    = (Raise (RemoteException "NoSuchObjectException"),
       mkWorld (transport w) (server w) (trace w ++ [EvGetTable d t])).
Proof.
  intros H. unfold Stub.get_table, bind, log, get_world. cbn. by rewrite H.
Qed.

(** A scoped operation that starts by fetching a table the service does
    not have stops there. *)
Lemma scoped_get_table_missing {A} d t (k : Table -> M A) w :
  tables (server w) !! (d, t) = None ->
  (openclose (table <- Stub.get_table d t ;; k table) w).1
    = Raise (RemoteException "NoSuchObjectException")
  ∧ server (openclose (table <- Stub.get_table d t ;; k table) w).2 = server w
  ∧ submitted (trace (openclose (table <- Stub.get_table d t ;; k table) w).2)
      = submitted (trace w).
Proof.
  intros Ht.
  destruct (openclose_run (table <- Stub.get_table d t ;; k table) w
              (Raise (RemoteException "NoSuchObjectException"))
              (server w) [EvGetTable d t]) as (-> & -> & ->).
  - unfold bind. rewrite stub_get_table_missing by by rewrite entered_server.
    by rewrite entered_server.
  - by rewrite app_nil_r.
Qed.


Lemma get_columns_found self table_name tbl w :
  tables (server w) !! (db self, table_name) = Some tbl ->
  (get_columns self table_name w).1 = Ok (column_pairs (sd_cols tbl))
  ∧ server (get_columns self table_name w).2 = server w
  ∧ submitted (trace (get_columns self table_name w).2) = submitted (trace w).
Proof.
  intros Ht. unfold get_columns.
  match goal with
  | |- context [openclose ?body w] =>
      destruct (openclose_run body w (Ok (column_pairs (sd_cols tbl)))
                  (server w) [EvGetTable (db self) table_name])
        as (-> & -> & ->)
  end.
  - unfold bind.
    rewrite (stub_get_table_found _ _ tbl) by by rewrite entered_server.
    by rewrite entered_server.
  - by rewrite app_nil_r.
Qed.

(** X2.  [get_columns] changes nothing on the service and submits
    nothing.  For a table the service has it returns one (name, type)
    pair per column, in the order of the schema; for a table the service
    does not have, the exception of the remote call reaches the caller
    as it is, not wrapped as [get_table] wraps it. *)
Theorem get_columns_in_schema_order self table_name w :
  server (get_columns self table_name w).2 = server w
  ∧ submitted (trace (get_columns self table_name w).2) = submitted (trace w)
  ∧ match tables (server w) !! (db self, table_name) with
    | Some tbl =>
        ∃ pairs,
          (get_columns self table_name w).1 = Ok pairs
          ∧ pairs.*1 = map name (sd_cols tbl)
          ∧ pairs.*2 = map type (sd_cols tbl)
    | None =>
        (get_columns self table_name w).1
          = Raise (RemoteException "NoSuchObjectException")
    end.
Proof.
  destruct (tables (server w) !! (db self, table_name)) as [tbl|] eqn:Ht.
  - destruct (get_columns_found self table_name tbl w Ht) as (Hr & -> & ->).
    do 2 (split; [done|]). exists (column_pairs (sd_cols tbl)).
    split; [done|]. unfold column_pairs.
    split; rewrite <- list_fmap_compose; by apply list_fmap_ext.
  - unfold get_columns.
    by destruct (scoped_get_table_missing (db self) table_name
                   (fun table => ret (map (fun col => (name col, type col))
                                          (sd_cols table))) w Ht)
      as (-> & -> & ->).
Qed.

(** ** Helpers on a table the service does not have *)

(** X3.  On a table the service does not have, each of [add_column],
    [remove_column] and [alter_column_type] lets the exception of the
    remote call through, submits nothing and leaves the service as it
    was. *)
Theorem helpers_missing_table self table_name column_name data_type cm w :
  tables (server w) !! (db self, table_name) = None ->
  ((add_column self table_name column_name data_type cm w).1
     = Raise (RemoteException "NoSuchObjectException")
   ∧ server (add_column self table_name column_name data_type cm w).2
       = server w
   ∧ submitted (trace (add_column self table_name column_name data_type cm w).2)
       = submitted (trace w))
  ∧ ((remove_column self table_name column_name w).1
       = Raise (RemoteException "NoSuchObjectException")
     ∧ server (remove_column self table_name column_name w).2 = server w
     ∧ submitted (trace (remove_column self table_name column_name w).2)
         = submitted (trace w))
  ∧ ((alter_column_type self table_name column_name data_type cm w).1
       = Raise (RemoteException "NoSuchObjectException")
     ∧ server (alter_column_type self table_name column_name data_type cm w).2
         = server w
     ∧ submitted (trace (alter_column_type self table_name column_name
                           data_type cm w).2)
         = submitted (trace w)).
Proof.
  intros Ht. unfold add_column, remove_column, alter_column_type.
  split; [|split]; by apply scoped_get_table_missing.
Qed.

Lemma helpers_missing_table_witness :
  tables (server closed_world) !! (db demo_client, "u") = None
  ∧ (add_column demo_client "u" "y" "string" "" closed_world).1
      = Raise (RemoteException "NoSuchObjectException")
  ∧ (remove_column demo_client "u" "y" closed_world).1
      = Raise (RemoteException "NoSuchObjectException")
  ∧ (alter_column_type demo_client "u" "y" "string" "" closed_world).1
      = Raise (RemoteException "NoSuchObjectException").
Proof.
  assert (tables (server closed_world) !! (db demo_client, "u") = None) as Ht
    by (vm_compute; reflexivity).
  split; [exact Ht|].
  destruct (helpers_missing_table demo_client "u" "y" "string" ""
              closed_world Ht) as ((Ha & _) & (Hr & _) & (Hl & _)).
  repeat split; assumption.
Defined.

(** ** Footprints *)

Section EmitsOnly.
Context (P : event -> Prop).

Lemma emits_only_ret {A} (a : A) : emits_only P (ret a).
Proof. intros w. exists []. by rewrite app_nil_r. Qed.

Lemma emits_only_raise {A} (e : exn) : emits_only P (@raise A e).
Proof. intros w. exists []. by rewrite app_nil_r. Qed.

Lemma emits_only_get_world : emits_only P get_world.
Proof. intros w. exists []. by rewrite app_nil_r. Qed.

Lemma emits_only_set_server s : emits_only P (set_server s).
Proof. intros w. exists []. by rewrite app_nil_r. Qed.

Lemma emits_only_set_transport t : emits_only P (set_transport t).
Proof. intros w. exists []. by rewrite app_nil_r. Qed.

Lemma emits_only_log e : P e -> emits_only P (log e).
Proof. intros He w. exists [e]. split; [done|]. by constructor. Qed.

Lemma emits_only_bind {A B} (c : M A) (k : A -> M B) :
  emits_only P c -> (∀ a, emits_only P (k a)) -> emits_only P (bind c k).
Proof.
  intros Hc Hk w. unfold bind. destruct (Hc w) as (evs & Htr & Hev).
  destruct (c w) as [[a|e] w1]; cbn [snd] in *; [|eauto].
  destruct (Hk a w1) as (evs' & Htr' & Hev').
  exists (evs ++ evs'). rewrite Htr', Htr, <- app_assoc.
  split; [done|]. by apply Forall_app.
Qed.

Lemma emits_only_try_except {A} (body handler : M A) :
  emits_only P body -> emits_only P handler ->
  emits_only P (try_except body handler).
Proof.
  intros Hb Hh w. unfold try_except. destruct (Hb w) as (evs & Htr & Hev).
  destruct (body w) as [[a|e] w1]; cbn [snd] in *; [eauto|].
  destruct (Hh w1) as (evs' & Htr' & Hev').
  exists (evs ++ evs'). rewrite Htr', Htr, <- app_assoc.
  split; [done|]. by apply Forall_app.
Qed.

Lemma emits_only_unless_pinned op :
  emits_only P op -> emits_only P (unless_pinned op).
Proof.
  intros Hop w. unfold unless_pinned. destruct (pinned (transport w)).
  - exists []. by rewrite app_nil_r.
  - apply Hop.
Qed.

Lemma emits_only_contextmanager {A} before after (body : M A) :
  emits_only P before -> emits_only P after -> emits_only P body ->
  emits_only P (contextmanager before after body).
Proof.
  intros Hb Ha Hbody w. unfold contextmanager.
  destruct (Hb w) as (evs1 & Htr1 & Hev1).
  destruct (before w) as [[[]|e] w1]; cbn [snd] in *; [|eauto].
  destruct (Hbody w1) as (evs2 & Htr2 & Hev2).
  destruct (body w1) as [[a|e] w2]; cbn [snd] in *.
  - destruct (Ha w2) as (evs3 & Htr3 & Hev3).
    exists (evs1 ++ evs2 ++ evs3).
    split; [|by repeat apply Forall_app_2].
    destruct (after w2) as [[[]|e] w3]; cbn [snd] in *;
      by rewrite Htr3, Htr2, Htr1, <- !app_assoc.
  - exists (evs1 ++ evs2). split; [|by apply Forall_app_2].
    by rewrite Htr2, Htr1, <- app_assoc.
Qed.

Lemma emits_only_openclose {A} (body : M A) :
  P EvOpen -> P EvClose -> emits_only P body -> emits_only P (openclose body).
Proof.
  intros Ho Hc Hbody. unfold openclose.
  apply emits_only_contextmanager; [| |done];
    apply emits_only_unless_pinned.
  - intros w. exists [EvOpen]. split; [done|]. by constructor.
  - intros w. exists [EvClose]. split; [done|]. by constructor.
Qed.

End EmitsOnly.

Ltac solve_emits_only :=
  repeat first
    [ apply emits_only_ret
    | apply emits_only_raise
    | apply emits_only_get_world
    | apply emits_only_set_server
    | apply emits_only_log; cbn; solve [auto | split; discriminate]
    | apply emits_only_bind; [|intros ?]
    | apply emits_only_try_except
    | apply emits_only_openclose; [cbn; solve [auto | split; discriminate]..|]
    | progress cbv zeta
    | match goal with
      | |- emits_only _ (match ?x with _ => _ end) => destruct x
      | |- emits_only _ (if ?x then _ else _) => destruct x
      end ].

Lemma emits_only_stub_get_table P d t :
  P (EvGetTable d t) -> emits_only P (Stub.get_table d t).
Proof.
  intros HP. unfold Stub.get_table.
  apply emits_only_bind; [by apply emits_only_log|intros _].
  solve_emits_only.
Qed.

Lemma emits_only_stub_alter_table P d t tbl :
  P (EvAlterTable d t tbl) -> emits_only P (Stub.alter_table d t tbl).
Proof.
  intros HP. unfold Stub.alter_table.
  apply emits_only_bind; [by apply emits_only_log|intros _].
  solve_emits_only.
Qed.

Lemma emits_only_alter_loop P self t ty refs tbl :
  (∀ tbl', P (EvAlterTable (db self) t tbl')) ->
  emits_only P (alter_loop self t ty refs tbl).
Proof.
  intros HP. revert tbl.
  induction refs as [|i refs IH]; intros tbl; cbn [alter_loop].
  - apply emits_only_ret.
  - cbv zeta. apply emits_only_bind; [|intros _; apply IH].
    by apply emits_only_stub_alter_table.
Qed.

(** What a helper on one table says to the service, for any set [P] of
    events that holds the fetches and submits of that table. *)
Lemma emits_only_helpers P self table_name column_name data_type cm :
  P EvOpen -> P EvClose ->
  P (EvGetTable (db self) table_name) ->
  (∀ tbl, P (EvAlterTable (db self) table_name tbl)) ->
  emits_only P (get_table self table_name)
  ∧ emits_only P (get_columns self table_name)
  ∧ emits_only P (add_column self table_name column_name data_type cm)
  ∧ emits_only P (remove_column self table_name column_name)
  ∧ emits_only P (alter_column_type self table_name column_name data_type cm).
Proof.
  intros Ho Hc Hg Ha.
  pose proof (emits_only_stub_get_table P _ _ Hg) as Hget.
  assert (∀ tbl, emits_only P (Stub.alter_table (db self) table_name tbl))
    as Halter by (intros tbl; by apply emits_only_stub_alter_table).
  pose proof (emits_only_alter_loop P self table_name data_type) as Hloop.
  unfold get_table, get_columns, add_column, remove_column, alter_column_type.
  repeat split; apply emits_only_openclose; try done.
  - apply emits_only_try_except; [done|apply emits_only_raise].
  - apply emits_only_bind; [done|intros ?]. apply emits_only_ret.
  - apply emits_only_bind; [done|intros ?].
    destruct (py_in _ _); [apply emits_only_raise|apply Halter].
  - apply emits_only_bind; [done|intros ?]. cbv zeta.
    destruct (_ =? _)%Z; [apply Halter|apply emits_only_raise].
  - apply emits_only_bind; [done|intros ?]. cbv zeta.
    destruct (bool_decide _); [apply emits_only_raise|by apply Hloop].
Qed.

(** X4.  Each getter and helper says nothing to the service but about
    the table it was given, in the database of the client: besides
    opening and closing the transport it only fetches that table and
    submits that table.  None of them runs a query, fetches rows, asks
    for a database or names another table. *)
Theorem helpers_touch_one_table self table_name column_name data_type cm :
  emits_only (about (db self) table_name) (get_table self table_name)
  ∧ emits_only (about (db self) table_name) (get_columns self table_name)
  ∧ emits_only (about (db self) table_name)
      (add_column self table_name column_name data_type cm)
  ∧ emits_only (about (db self) table_name)
      (remove_column self table_name column_name)
  ∧ emits_only (about (db self) table_name)
      (alter_column_type self table_name column_name data_type cm).
Proof. by apply emits_only_helpers. Qed.

(** ** One-shot scopes *)

Lemma opens_app evs1 evs2 : opens (evs1 ++ evs2) = opens evs1 + opens evs2.
Proof. unfold opens. by rewrite filter_app, length_app. Qed.

Lemma closes_app evs1 evs2 : closes (evs1 ++ evs2) = closes evs1 + closes evs2.
Proof. unfold closes. by rewrite filter_app, length_app. Qed.

Lemma keeps_transport_ret {A} (a : A) : keeps_transport (ret a).
Proof. done. Qed.

Lemma keeps_transport_raise {A} (e : exn) : keeps_transport (@raise A e).
Proof. done. Qed.

Lemma keeps_transport_bind {A B} (c : M A) (k : A -> M B) :
  keeps_transport c -> (∀ a, keeps_transport (k a)) ->
  keeps_transport (bind c k).
Proof.
  intros Hc Hk w. unfold bind. specialize (Hc w).
  destruct (c w) as [[a|e] w1]; cbn [snd] in *; [|done].
  by rewrite Hk.
Qed.

Lemma keeps_transport_try_except {A} (body handler : M A) :
  keeps_transport body -> keeps_transport handler ->
  keeps_transport (try_except body handler).
Proof.
  intros Hb Hh w. unfold try_except. specialize (Hb w).
  destruct (body w) as [[a|e] w1]; cbn [snd] in *; [done|].
  by rewrite Hh.
Qed.

Lemma keeps_transport_stub_get_table d t : keeps_transport (Stub.get_table d t).
Proof.
  intros w. unfold Stub.get_table, bind, log, get_world. cbn.
  by destruct (tables (server w) !! (d, t)).
Qed.

Lemma keeps_transport_stub_alter_table d t tbl :
  keeps_transport (Stub.alter_table d t tbl).
Proof. done. Qed.

Lemma keeps_transport_alter_loop self t ty refs tbl :
  keeps_transport (alter_loop self t ty refs tbl).
Proof.
  revert tbl. induction refs as [|i refs IH]; intros tbl; [done|].
  cbn [alter_loop]. cbv zeta. apply keeps_transport_bind; [done|].
  intros _. apply IH.
Qed.

(** A body that leaves the transport alone, run under [openclose] with
    [keep_open] not set. *)
Lemma openclose_one_shot {A} (body : M A) :
  keeps_transport body -> emits_only remote body -> one_shot (openclose body).
Proof.
  intros Hk He w Hw. rewrite (openclose_unpinned body w Hw).
  destruct (He (transport_open w).2) as (evs & Htr & Hev).
  specialize (Hk (transport_open w).2).
  exists evs. split; [done|].
  destruct (body (transport_open w).2) as [[a|e] w2]; cbn [fst snd] in *.
  - assert (pinned (transport w2) = false) as -> by (by rewrite Hk).
    rewrite transport_close_world. cbn [fst snd trace transport].
    rewrite Htr, Hk, transport_open_world. cbn [trace transport keep_open].
    by rewrite <- !app_assoc.
  - rewrite Htr, Hk, transport_open_world. cbn [trace transport].
    by rewrite <- !app_assoc.
Qed.

Lemma remote_get_table d t : remote (EvGetTable d t).
Proof. split; discriminate. Qed.

Lemma remote_alter_table d t tbl : remote (EvAlterTable d t tbl).
Proof. split; discriminate. Qed.

Lemma one_shot_get_table self t : one_shot (get_table self t).
Proof.
  apply openclose_one_shot.
  - apply keeps_transport_try_except;
      [apply keeps_transport_stub_get_table|done].
  - apply emits_only_try_except; [|apply emits_only_raise].
    apply emits_only_stub_get_table, remote_get_table.
Qed.

Lemma one_shot_get_columns self t : one_shot (get_columns self t).
Proof.
  apply openclose_one_shot.
  - apply keeps_transport_bind; [apply keeps_transport_stub_get_table|done].
  - apply emits_only_bind; [|intros ?; apply emits_only_ret].
    apply emits_only_stub_get_table, remote_get_table.
Qed.

Lemma one_shot_add_column self t c ty cm : one_shot (add_column self t c ty cm).
Proof.
  apply openclose_one_shot.
  - apply keeps_transport_bind; [apply keeps_transport_stub_get_table|].
    intros tbl. by destruct (py_in _ _).
  - apply emits_only_bind;
      [apply emits_only_stub_get_table, remote_get_table|].
    intros tbl. destruct (py_in _ _); [apply emits_only_raise|].
    apply emits_only_stub_alter_table, remote_alter_table.
Qed.

Lemma one_shot_remove_column self t c : one_shot (remove_column self t c).
Proof.
  apply openclose_one_shot.
  - apply keeps_transport_bind; [apply keeps_transport_stub_get_table|].
    intros tbl. cbv zeta. by destruct (_ =? _)%Z.
  - apply emits_only_bind;
      [apply emits_only_stub_get_table, remote_get_table|].
    intros tbl. cbv zeta. destruct (_ =? _)%Z; [|apply emits_only_raise].
    apply emits_only_stub_alter_table, remote_alter_table.
Qed.

Lemma one_shot_alter_column_type self t c ty cm :
  one_shot (alter_column_type self t c ty cm).
Proof.
  apply openclose_one_shot.
  - apply keeps_transport_bind; [apply keeps_transport_stub_get_table|].
    intros tbl. cbv zeta.
    destruct (bool_decide _); [done|apply keeps_transport_alter_loop].
  - apply emits_only_bind;
      [apply emits_only_stub_get_table, remote_get_table|].
    intros tbl. cbv zeta. destruct (bool_decide _); [apply emits_only_raise|].
    apply emits_only_alter_loop. intros tbl'. apply remote_alter_table.
Qed.

Lemma one_shot_discard {A} (c : M A) : one_shot c -> one_shot (c ;; ret tt).
Proof.
  intros Hc w Hw. destruct (Hc w Hw) as (evs & Hev & H).
  exists evs. split; [done|]. unfold bind.
  by destruct (c w) as [[a|e] w1].
Qed.

Lemma opens_scope evs :
  Forall remote evs -> opens ([EvOpen] ++ evs ++ [EvClose]) = 1
                       ∧ closes ([EvOpen] ++ evs ++ [EvClose]) = 1
                       ∧ opens ([EvOpen] ++ evs) = 1
                       ∧ closes ([EvOpen] ++ evs) = 0.
Proof.
  intros [Ho Hc]%remote_no_transitions.
  rewrite !opens_app, !closes_app, Ho, Hc. by vm_compute.
Qed.

(** X5.  Outside a session, client calls made one after the other are
    each a scope of their own: when all [n] return, the transport has
    been opened [n] times and closed [n] times and is closed at the end.
    When one of them raises, the calls after it are not made, and there
    is one more open than closes: the transport is left open. *)
Theorem unpinned_calls_balanced (ops : list (M unit)) (w : World) :
  Forall one_shot ops ->
  pinned (transport w) = false ->
  ∃ evs,
    trace (run_all ops w).2 = trace w ++ evs
    ∧ match (run_all ops w).1 with
      | Ok _ =>
          opens evs = length ops ∧ closes evs = length ops
          ∧ (ops ≠ [] -> is_open (transport (run_all ops w).2) = false)
      | Raise _ =>
          (∃ n, n < length ops ∧ opens evs = S n ∧ closes evs = n)%nat
          ∧ is_open (transport (run_all ops w).2) = true
      end.
Proof.
  intros Hops. revert w.
  induction Hops as [|op ops Hop Hops IH]; intros w Hw.
  - exists []. rewrite app_nil_r. by cbn.
  - cbn [run_all foldr]. fold (run_all ops). unfold bind.
    destruct (Hop w Hw) as (evs1 & Hev1 & H1).
    destruct (opens_scope evs1 Hev1) as (Ho & Hc & Ho' & Hc').
    destruct (op w) as [[[]|e] w1]; cbn [fst snd] in *.
    + destruct H1 as [Htr1 Htp1].
      assert (pinned (transport w1) = false) as Hw1 by (by rewrite Htp1).
      destruct (IH w1 Hw1) as (evs2 & Htr2 & H2).
      exists (([EvOpen] ++ evs1 ++ [EvClose]) ++ evs2).
      split; [by rewrite Htr2, Htr1, <- !app_assoc|].
      rewrite opens_app, closes_app, Ho, Hc.
      destruct ((run_all ops w1).1) as [[]|e].
      * destruct H2 as (-> & -> & Hclosed). do 2 (split; [done|]).
        intros _. destruct ops as [|op' ops']; [|by apply Hclosed].
        cbn. by rewrite Htp1.
      * destruct H2 as [(n & Hn & -> & ->) Hopen]. split; [|done].
        exists (S n). cbn [length]. split; [lia|done].
    + destruct H1 as [Htr1 Htp1]. exists ([EvOpen] ++ evs1).
      split; [done|]. split; [|by rewrite Htp1].
      exists 0. cbn [length]. split; [lia|done].
Qed.

Lemma unpinned_calls_balanced_witness :
  Forall one_shot demo_block
  ∧ pinned (transport closed_world) = false
  ∧ ∃ evs,
      trace (run_all demo_block closed_world).2 = trace closed_world ++ evs
      ∧ opens evs = 3 ∧ closes evs = 3
      ∧ is_open (transport (run_all demo_block closed_world).2) = false.
Proof.
  assert (Forall one_shot demo_block) as Hops.
  { unfold demo_block. repeat constructor.
    - apply one_shot_discard, one_shot_get_columns.
    - apply one_shot_add_column.
    - apply one_shot_alter_column_type. }
  split; [exact Hops|]. split; [reflexivity|].
  destruct (unpinned_calls_balanced demo_block closed_world Hops eq_refl)
    as (evs & Htr & H).
  change ((run_all demo_block closed_world).1) with (Ok tt) in H.
  destruct H as (Ho & Hc & Hclosed).
  exists evs. split; [exact Htr|]. split; [exact Ho|]. split; [exact Hc|].
  by apply Hclosed.
Defined.

(** ** The whole of a cursor *)



(** From a suspended generator: the rows in hand and then the batches up
    to the first empty one, one fetch for each of these and one that
    finds the empty batch. *)
Lemma consume_suspended_all stypes rows w :
  ∃ w' evs,
    consume (S (length rows + sum_list (map length (cur_batches (server w)))))
            (GenSuspended stypes rows) w
      = Some (map (make_record stypes)
                  (rows ++ concat (leading_batches (cur_batches (server w)))),
              Ok tt, GenFinished, w')
    ∧ trace w' = trace w ++ evs
    ∧ fetches evs
        = replicate (S (length (leading_batches (cur_batches (server w)))))
                    500%Z
    ∧ cur_batches (server w')
        = drop (S (length (leading_batches (cur_batches (server w)))))
               (cur_batches (server w))
    ∧ transport w'
        = (if pinned (transport w) then transport w
           else mkTransport false (keep_open (transport w)))
    ∧ opens evs = 0
    ∧ closes evs = (if pinned (transport w) then 0 else 1).
Proof.
  remember (cur_batches (server w)) as batches eqn:Hb.
  revert rows w Hb.
  induction batches as [|batch batches IH]; intros rows.
  - induction rows as [|row rows IHrows]; intros w Hb.
    + erewrite consume_stop.
      2:{ cbn [next]. unfold fetch_step.
          rewrite stub_fetchN_nil by done.
          by rewrite unless_pinned_close_run. }
      eexists _, _. split; [done|]. cbn [trace server transport].
      split; [by rewrite <- app_assoc|].
      split; [rewrite fetches_app; by destruct (pinned _)|].
      split; [by rewrite <- Hb|]. split; [done|].
      by destruct (pinned _).
    + cbn [length Nat.add]. erewrite consume_yield by reflexivity.
      destruct (IHrows w Hb) as (w' & evs & -> & H). eauto.
  - induction rows as [|row rows IHrows]; intros w Hb.
    + destruct batch as [|row rows].
      * erewrite consume_stop.
        2:{ cbn [next]. unfold fetch_step.
            erewrite stub_fetchN_cons by done.
            by rewrite unless_pinned_close_run. }
        eexists _, _. split; [done|]. cbn [trace server transport].
        split; [by rewrite <- app_assoc|].
        split; [rewrite fetches_app; by destruct (pinned _)|].
        do 2 (split; [done|]). by destruct (pinned _).
      * cbn [map sum_list length Nat.add leading_batches concat].
        erewrite consume_yield.
        2:{ cbn [next]. unfold fetch_step.
            erewrite stub_fetchN_cons by done. reflexivity. }
        edestruct (IH rows)
          as (w' & evs & -> & Htr & Hf & Hbs & Htp & Ho & Hc);
          [reflexivity|].
        cbn [trace server transport cur_batches with_result] in *.
        eexists _, _. split; [done|].
        split; [by rewrite Htr, <- app_assoc|].
        split; [by rewrite fetches_app, Hf|].
        do 2 (split; [done|]).
        by rewrite opens_app, closes_app, Ho, Hc.
    + cbn [length Nat.add]. erewrite consume_yield by reflexivity.
      destruct (IHrows w Hb) as (w' & evs & -> & H). eauto.
Qed.

Lemma consume_created fuel q schema batches w :
  run_query (server w) q = Ok (schema, batches) ->
  consume fuel (GenCreated q) w
  = consume fuel (GenSuspended (map name schema) [])
      (mkWorld (transport (entered w)) (with_result (server w) schema batches)
               (trace (entered w) ++ [EvExecute q; EvGetThriftSchema])).
Proof.
  intros Hq. destruct fuel as [|fuel]; [done|].
  cbn [consume]. by rewrite (next_created_ok _ _ _ _ Hq).
Qed.

Lemma entered_transport w :
  transport (entered w)
  = (if pinned (transport w) then transport w
     else mkTransport true (keep_open (transport w))).
Proof. unfold entered. by rewrite unless_pinned_open_run. Qed.



(** X7.  When the service refuses the query, the first [next] raises the
    service's exception before any schema or row is asked for.  The
    generator is finished by it, and outside a session the transport,
    opened for the query, is left open. *)
Theorem execute_refused_query self q e w :
  run_query (server w) q = Raise e ->
  next (execute self q) w
    = (Raise e, GenFinished,
       mkWorld (if pinned (transport w) then transport w
                else mkTransport true (keep_open (transport w)))
               (server w)
               (trace w ++ (if pinned (transport w) then [] else [EvOpen])
                  ++ [EvExecute q]))
  ∧ ∀ fuel, consume (S fuel) (execute self q) w
            = Some ([], Raise e, GenFinished, (next (execute self q) w).2).
Proof.
  intros Hq. unfold execute.
  rewrite (next_created_raise _ _ _ Hq), entered_transport, entered_trace.
  rewrite <- app_assoc. split; [done|].
  intros fuel. cbn [consume]. rewrite (next_created_raise _ _ _ Hq).
  by rewrite entered_transport, entered_trace, <- app_assoc.
Qed.

(** ** Rows and records *)

Lemma split_tab_nonempty s : split_tab s ≠ [].
Proof.
  destruct s as [|c s]; [done|]. cbn [split_tab].
  destruct (Ascii.eqb c tab); [done|]. by destruct (split_tab s).
Qed.

Lemma tsv_cons x y ys :
  tsv (x :: y :: ys) = x +:+ String tab (tsv (y :: ys)).
Proof. reflexivity. Qed.

Lemma tsv_split_tab row : tsv (split_tab row) = row.
Proof.
  induction row as [|c row IH]; [done|]. cbn [split_tab].
  pose proof (split_tab_nonempty row) as Hne.
  destruct (Ascii.eqb c tab) eqn:Hc.
  - apply Ascii.eqb_eq in Hc as ->.
    destruct (split_tab row) as [|h t]; [done|].
    rewrite tsv_cons, IH. reflexivity.
  - destruct (split_tab row) as [|h [|h' t]]; [done|..].
    + by rewrite <- IH.
    + by rewrite <- IH.
Qed.

Lemma split_tab_tab_free s : tab_free s = true -> split_tab s = [s].
Proof.
  induction s as [|c s IH]; [done|]. cbn [tab_free split_tab].
  intros [Hc Hs]%andb_true_iff. apply negb_true_iff in Hc.
  by rewrite Hc, (IH Hs).
Qed.

Lemma split_tab_app x rest :
  tab_free x = true ->
  split_tab (x +:+ String tab rest) = x :: split_tab rest.
Proof.
  induction x as [|c x IH].
  - intros _. reflexivity.
  - cbn [tab_free]. intros [Hc Hx]%andb_true_iff. apply negb_true_iff in Hc.
    change (String c x +:+ String tab rest)
      with (String c (x +:+ String tab rest)).
    cbn [split_tab]. by rewrite Hc, (IH Hx).
Qed.

Lemma split_tab_tsv values :
  values ≠ [] -> Forall (fun v => tab_free v = true) values ->
  split_tab (tsv values) = values.
Proof.
  intros Hne Hfree. induction Hfree as [|v values Hv Hfree IH]; [done|].
  destruct values as [|v' values].
  - by apply split_tab_tab_free.
  - rewrite tsv_cons, split_tab_app by done. by rewrite IH.
Qed.

(** X8.  Splitting a row at its tabs loses nothing: joined again by
    tabs, the values give back the row.  And a row made of values that
    hold no tab splits into these very values. *)
Theorem split_tab_inverts_tsv (row : string) (values : list string) :
  values ≠ [] ->
  Forall (fun v => tab_free v = true) values ->
  tsv (split_tab row) = row ∧ split_tab (tsv values) = values.
Proof. intros Hne Hfree. split; [apply tsv_split_tab|by apply split_tab_tsv]. Qed.

Lemma split_tab_inverts_tsv_witness :
  ["1"; ""; "x y"] ≠ ([] : list string)
  ∧ Forall (fun v => tab_free v = true) ["1"; ""; "x y"]
  ∧ tsv (split_tab (tsv ["a"; "b"])) = tsv ["a"; "b"]
  ∧ split_tab (tsv ["1"; ""; "x y"]) = ["1"; ""; "x y"].
Proof.
  assert (["1"; ""; "x y"] ≠ ([] : list string)) as Hne by discriminate.
  assert (Forall (fun v => tab_free v = true) ["1"; ""; "x y"]) as Hfree
    by (repeat constructor).
  split; [exact Hne|]. split; [exact Hfree|].
  exact (split_tab_inverts_tsv (tsv ["a"; "b"]) ["1"; ""; "x y"] Hne Hfree).
Defined.

Lemma py_dict_from_notin (d : gmap string string) pairs k :
  k ∉ pairs.*1 ->
  foldl (fun d kv => <[kv.1 := kv.2]> d) d pairs !! k = d !! k.
Proof.
  revert d. induction pairs as [|[k' v'] pairs IH]; intros d Hk; [done|].
  cbn [foldl]. apply not_elem_of_cons in Hk as [Hne Hk].
  rewrite IH by done. by rewrite lookup_insert_ne.
Qed.

(** [dict] keeps, for a key, the value of its last pair. *)
Lemma py_dict_lookup_last pairs i k v :
  pairs !! i = Some (k, v) ->
  (∀ j v', (i < j)%nat -> pairs !! j ≠ Some (k, v')) ->
  py_dict pairs !! k = Some v.
Proof.
  intros Hi Hlast. unfold py_dict.
  rewrite <- (take_drop_middle _ _ _ Hi), foldl_app. cbn [foldl].
  rewrite py_dict_from_notin; [apply lookup_insert_eq|].
  intros ([k' v'] & Hk & [j Hj]%list_elem_of_lookup_1)%list_elem_of_fmap.
  cbn in Hk. subst k'. rewrite lookup_drop in Hj.
  apply (Hlast (S i + j) v'); [lia|done].
Qed.

Lemma py_dict_lookup_none pairs k :
  k ∉ pairs.*1 -> py_dict pairs !! k = None.
Proof. intros Hk. unfold py_dict. by rewrite py_dict_from_notin. Qed.

(** X9.  The record of a row gives, under a field name, the value at
    the last position that bears this name and that the row reaches;
    under a name with no such position it gives nothing.  So when the
    result schema repeats a name, the earlier columns of that name are
    lost from the record. *)
Theorem make_record_last_column stypes row k :
  (∀ i v, stypes !! i = Some k -> split_tab row !! i = Some v ->
     (∀ j, (i < j)%nat -> stypes !! j = Some k -> split_tab row !! j = None) ->
     make_record stypes row !! k = Some v)
  ∧ ((∀ i, stypes !! i = Some k -> split_tab row !! i = None) ->
     make_record stypes row !! k = None).
Proof.
  unfold make_record. split.
  - intros i v Hk Hv Hlast. apply (py_dict_lookup_last _ i).
    + apply lookup_zip_with_Some. eauto.
    + intros j v' Hj (k' & v'' & Heq & Hk' & Hv')%lookup_zip_with_Some.
      injection Heq as <- <-. rewrite (Hlast j Hj Hk') in Hv'. done.
  - intros Hnone. apply py_dict_lookup_none.
    intros ([k' v'] & Hk & [j Hj]%list_elem_of_lookup_1)%list_elem_of_fmap.
    cbn in Hk. subst k'.
    apply lookup_zip_with_Some in Hj as (k' & v'' & Heq & Hk' & Hv').
    injection Heq as <- <-. rewrite (Hnone j Hk') in Hv'. done.
Qed.

Lemma make_record_last_column_witness :
  make_record ["a"; "b"; "a"] (tsv ["1"; "2"; "3"; "4"]) !! "a" = Some "3"
  ∧ make_record ["a"; "b"; "a"] (tsv ["1"; "2"]) !! "a" = Some "1"
  ∧ make_record ["a"; "b"] (tsv ["1"]) !! "b" = None.
Proof.
  split; [|split].
  - apply (proj1 (make_record_last_column _ _ _) 2 "3");
      [reflexivity|reflexivity|].
    intros [|[|[|j]]] Hj Hk; try lia; discriminate Hk.
  - apply (proj1 (make_record_last_column _ _ _) 0 "1");
      [reflexivity|reflexivity|].
    intros [|[|[|j]]] Hj Hk; try lia; try discriminate Hk; reflexivity.
  - apply (proj2 (make_record_last_column _ _ _)).
    intros [|[|i]] Hk; try discriminate Hk; reflexivity.
Defined.

(** X10.  When the field names are distinct and the values of a row hold
    no tab, the record of the row gives back each value under the name
    at its position. *)
Theorem make_record_reads_back stypes values i k v :
  NoDup stypes ->
  Forall (fun v => tab_free v = true) values ->
  stypes !! i = Some k ->
  values !! i = Some v ->
  make_record stypes (tsv values) !! k = Some v.
Proof.
  intros Hnd Hfree Hk Hv. unfold make_record.
  rewrite split_tab_tsv; [|by intros ->|done].
  apply (py_dict_lookup_last _ i).
  - apply lookup_zip_with_Some. eauto.
  - intros j v' Hj (k' & v'' & Heq & Hk' & Hv')%lookup_zip_with_Some.
    injection Heq as <- <-.
    pose proof (NoDup_lookup _ _ _ _ Hnd Hk Hk'). lia.
Qed.

Lemma make_record_reads_back_witness :
  NoDup ["a"; "b"]
  ∧ Forall (fun v => tab_free v = true) ["1"; "2"]
  ∧ make_record ["a"; "b"] (tsv ["1"; "2"]) !! "b" = Some "2".
Proof.
  assert (NoDup ["a"; "b"]) as Hnd.
  { apply NoDup_cons. split; [|apply NoDup_singleton].
    intros Hin%list_elem_of_singleton. discriminate Hin. }
  assert (Forall (fun v => tab_free v = true) ["1"; "2"]) as Hfree
    by (repeat constructor).
  split; [exact Hnd|]. split; [exact Hfree|].
  exact (make_record_reads_back ["a"; "b"] ["1"; "2"] 1 "b" "2" Hnd Hfree
           eq_refl eq_refl).
Defined.

(** ** Helpers followed by getters *)

Lemma add_column_run self table_name column_name data_type cm tbl w :
  tables (server w) !! (db self, table_name) = Some tbl ->
  (add_column self table_name column_name data_type cm w).1 = Ok tt
  ∧ server (add_column self table_name column_name data_type cm w).2
      = put_table (server w) (db self) table_name
          (mkTable (sd_cols tbl ++ [mkFieldSchema column_name data_type cm])).
Proof.
  intros Ht. unfold add_column.
  set (tbl' := mkTable (sd_cols tbl ++ [mkFieldSchema column_name data_type cm])).
  match goal with
  | |- context [openclose ?body w] =>
      destruct (openclose_run body w (Ok tt)
                   (put_table (server w) (db self) table_name tbl')
                   [EvGetTable (db self) table_name;
                    EvAlterTable (db self) table_name tbl'])
        as (-> & -> & _)
  end; [|done].
  unfold bind.
  rewrite (stub_get_table_found _ _ tbl) by by rewrite entered_server.
  rewrite column_name_not_in_cols, stub_alter_table_run.
  cbn [trace transport server]. by rewrite <- app_assoc, entered_server.
Qed.

(** X11.  With a service that keeps the schema it is sent, the columns
    read after [add_column] are the columns read before it followed by
    the new column with its type. *)
Theorem add_column_then_get_columns self table_name column_name data_type cm
    tbl w :
  tables (server w) !! (db self, table_name) = Some tbl ->
  ((add_column self table_name column_name data_type cm ;;
    get_columns self table_name) w).1
  = Ok (column_pairs (sd_cols tbl) ++ [(column_name, data_type)]).
Proof.
  intros Ht. unfold bind.
  destruct (add_column_run self table_name column_name data_type cm tbl w Ht)
    as [Hr Hs].
  destruct (add_column self table_name column_name data_type cm w)
    as [[[]|e] w1]; cbn [fst snd] in *; [|done].
  destruct (get_columns_found self table_name
              (mkTable (sd_cols tbl ++ [mkFieldSchema column_name data_type cm]))
              w1) as [-> _].
  { rewrite Hs. cbn [tables put_table]. apply lookup_insert_eq. }
  cbn [sd_cols]. unfold column_pairs. by rewrite map_app.
Qed.

Lemma add_column_then_get_columns_witness :
  tables (server closed_world) !! (db demo_client, "t")
    = Some (mkTable [mkFieldSchema "x" "int" ""])
  ∧ ((add_column demo_client "t" "y" "string" "c" ;;
      get_columns demo_client "t") closed_world).1
    = Ok [("x", "int"); ("y", "string")].
Proof.
  split; [reflexivity|].
  exact (add_column_then_get_columns demo_client "t" "y" "string" "c"
           (mkTable [mkFieldSchema "x" "int" ""]) closed_world eq_refl).
Defined.

Lemma alter_loop_run_full self t dt refs tbl w :
  alter_loop self t dt refs tbl w
  = (Ok tt,
     mkWorld (transport w)
       (foldl (fun s tb => put_table s (db self) t tb) (server w)
              (snapshots dt refs (sd_cols tbl)))
       (trace w ++ map (EvAlterTable (db self) t)
                       (snapshots dt refs (sd_cols tbl)))).
Proof.
  revert tbl w. induction refs as [|i refs IH]; intros tbl w.
  - cbn. rewrite app_nil_r. by destruct w.
  - cbn [alter_loop snapshots]. unfold bind.
    rewrite stub_alter_table_run, IH.
    cbn [transport trace server sd_cols map foldl].
    by rewrite <- app_assoc.
Qed.

Lemma put_tables_lookup s d t (tbls : list Table) tbl :
  tables s !! (d, t) = Some tbl ->
  tables (foldl (fun s tb => put_table s d t tb) s tbls) !! (d, t)
  = Some (default tbl (last tbls)).
Proof.
  revert s tbl. induction tbls as [|tb tbls IH]; intros s tbl Ht; [done|].
  cbn [foldl]. rewrite (IH _ tb) by apply lookup_insert_eq.
  rewrite last_cons. by destruct (last tbls).
Qed.

Lemma snapshots_final dt refs cols :
  default (mkTable cols) (last (snapshots dt refs cols))
  = mkTable (foldl (fun c i => alter (set_type dt) i c) cols refs).
Proof.
  revert cols. induction refs as [|i refs IH]; intros cols; [done|].
  cbn [snapshots foldl]. rewrite <- IH, last_cons.
  by destruct (last _).
Qed.

(** What [alter_column_type] leaves on the service for a table that has
    a column of the name. *)
Lemma alter_column_type_settled self table_name column_name data_type cm tbl w :
  tables (server w) !! (db self, table_name) = Some tbl ->
  column_name ∈ map name (sd_cols tbl) ->
  (alter_column_type self table_name column_name data_type cm w).1 = Ok tt
  ∧ tables (server (alter_column_type self table_name column_name data_type
                      cm w).2) !! (db self, table_name)
      = Some (mkTable (map (retype column_name data_type) (sd_cols tbl))).
Proof.
  intros Ht Hin. unfold alter_column_type.
  set (refs := columns_to_alter (sd_cols tbl) column_name data_type).
  match goal with
  | |- context [openclose ?body w] =>
      destruct (openclose_run body w (Ok tt)
                  (foldl (fun s tb => put_table s (db self) table_name tb)
                         (server w) (snapshots data_type refs (sd_cols tbl)))
                  (EvGetTable (db self) table_name
                     :: map (EvAlterTable (db self) table_name)
                            (snapshots data_type refs (sd_cols tbl))))
        as (-> & -> & _)
  end.
  - unfold bind.
    rewrite (stub_get_table_found _ _ tbl) by by rewrite entered_server.
    cbv zeta. rewrite bool_decide_false by by intros [].
    rewrite alter_loop_run_full. cbn [transport trace server].
    by rewrite <- app_assoc, entered_server.
  - split; [done|]. rewrite (put_tables_lookup _ _ _ _ tbl Ht).
    destruct tbl as [cols]. cbn [sd_cols] in *.
    rewrite snapshots_final. unfold refs. by rewrite alter_all_retypes.
Qed.

Lemma retype_name cn dt col : name (retype cn dt col) = name col.
Proof. unfold retype. by destruct (String.eqb _ _). Qed.

Lemma columns_to_alter_retyped cols cn dt :
  columns_to_alter (map (retype cn dt) cols) cn dt = [].
Proof.
  apply elem_of_nil_inv. intros i (col' & Hi & Hn & Hty)%elem_of_columns_to_alter.
  rewrite list_lookup_fmap in Hi.
  destruct (cols !! i) as [col|]; [|done]. injection Hi as <-.
  rewrite retype_name in Hn. apply Hty. unfold retype.
  by rewrite (proj2 (String.eqb_eq _ _) Hn).
Qed.

(** X12.  With a service that keeps the schema it is sent,
    [alter_column_type] on a column the table has settles the type: the
    columns read afterwards show the requested type for every column of
    that name and everything else as before, and the same call made
    again returns without submitting anything. *)
Theorem alter_column_type_then_settled self table_name column_name data_type
    cm tbl w :
  tables (server w) !! (db self, table_name) = Some tbl ->
  column_name ∈ map name (sd_cols tbl) ->
  (alter_column_type self table_name column_name data_type cm w).1 = Ok tt
  ∧ (get_columns self table_name
       (alter_column_type self table_name column_name data_type cm w).2).1
    = Ok (column_pairs (map (retype column_name data_type) (sd_cols tbl)))
  ∧ (alter_column_type self table_name column_name data_type cm
       (alter_column_type self table_name column_name data_type cm w).2).1
    = Ok tt
  ∧ submitted (trace (alter_column_type self table_name column_name data_type
                        cm (alter_column_type self table_name column_name
                              data_type cm w).2).2)
    = submitted (trace (alter_column_type self table_name column_name
                          data_type cm w).2).
Proof.
  intros Ht Hin.
  destruct (alter_column_type_settled self table_name column_name data_type
              cm tbl w Ht Hin) as [Hr Ht1].
  set (w1 := (alter_column_type self table_name column_name data_type cm w).2)
    in *.
  split; [done|]. split.
  { by destruct (get_columns_found self table_name _ w1 Ht1) as [-> _]. }
  rewrite <- (app_nil_r (submitted (trace w1))).
  apply (alter_column_type_run self table_name column_name data_type cm
           _ w1 (Ok tt) (server w1) [] Ht1).
  cbn [sd_cols]. rewrite bool_decide_false.
  2:{ intros Hnin. apply Hnin. rewrite <- list_fmap_compose.
      erewrite list_fmap_ext; [exact Hin|].
      intros ? col _. apply retype_name. }
  rewrite columns_to_alter_retyped. reflexivity.
Qed.

Lemma alter_column_type_then_settled_witness :
  tables (server closed_world) !! (db demo_client, "t")
    = Some (mkTable [mkFieldSchema "x" "int" ""])
  ∧ "x" ∈ map name [mkFieldSchema "x" "int" ""]
  ∧ (get_columns demo_client "t"
       (alter_column_type demo_client "t" "x" "bigint" "" closed_world).2).1
    = Ok [("x", "bigint")]
  ∧ submitted (trace (alter_column_type demo_client "t" "x" "bigint" ""
                        (alter_column_type demo_client "t" "x" "bigint" ""
                           closed_world).2).2)
    = [mkTable [mkFieldSchema "x" "bigint" ""]].
Proof.
  assert ("x" ∈ map name [mkFieldSchema "x" "int" ""]) as Hin
    by apply list_elem_of_here.
  split; [reflexivity|]. split; [exact Hin|].
  destruct (alter_column_type_then_settled demo_client "t" "x" "bigint" ""
              (mkTable [mkFieldSchema "x" "int" ""]) closed_world eq_refl Hin)
    as (_ & Hg & _ & Hs).
  split; [exact Hg|]. rewrite Hs. vm_compute. reflexivity.
Defined.

(** ** A scoped call while a cursor is suspended *)

(** X13.  Outside a session a cursor that has yielded its first record
    holds the transport open.  A client call made at that point is a
    scope of its own: when it returns it has closed the transport, though
    the cursor is still suspended with rows to come. *)
Theorem scoped_call_under_cursor {A} self q (c : M A) schema row rows
    batches w :
  pinned (transport w) = false ->
  run_query (server w) q = Ok (schema, (row :: rows) :: batches) ->
  one_shot c ->
  (next (execute self q) w).1
    = (Ok (Some (make_record (map name schema) row)),
       GenSuspended (map name schema) rows)
  ∧ is_open (transport (next (execute self q) w).2) = true
  ∧ cur_batches (server (next (execute self q) w).2) = batches
  ∧ match (c (next (execute self q) w).2).1 with
    | Ok _ =>
        is_open (transport (c (next (execute self q) w).2).2) = false
    | Raise _ =>
        is_open (transport (c (next (execute self q) w).2).2) = true
    end.
Proof.
  intros Hw Hq Hc. unfold execute.
  rewrite (next_created_ok _ _ _ _ Hq). unfold fetch_step.
  erewrite stub_fetchN_cons by reflexivity.
  cbn [fst snd transport server cur_batches with_result].
  rewrite entered_transport, Hw. cbn [is_open].
  do 3 (split; [done|]).
  match goal with
  | |- context [c ?w1] => destruct (Hc w1 Hw) as (evs & _ & H)
  end.
  destruct (c _) as [[a|e] w2]; cbn [fst snd] in *;
    destruct H as [_ ->]; done.
Qed.

Lemma scoped_call_under_cursor_witness :
  pinned (transport closed_world) = false
  ∧ one_shot (get_columns demo_client "t")
  ∧ is_open (transport (next (execute demo_client "q") closed_world).2) = true
  ∧ is_open (transport (get_columns demo_client "t"
                          (next (execute demo_client "q") closed_world).2).2)
    = false.
Proof.
  split; [reflexivity|]. split; [apply one_shot_get_columns|].
  destruct (scoped_call_under_cursor demo_client "q"
              (get_columns demo_client "t") _ _ _ _ closed_world
              eq_refl eq_refl (one_shot_get_columns demo_client "t"))
    as (_ & Hopen & _ & Hclosed).
  split; [exact Hopen|]. exact Hclosed.
Defined.

(** ** Concrete runs of the helpers *)

Lemma add_column_always_appends_witness :
  tables (server closed_world) !! (db demo_client, "t")
    = Some (mkTable [mkFieldSchema "x" "int" ""])
  ∧ (add_column demo_client "t" "x" "string" "again" closed_world).1 = Ok tt
  ∧ submitted (trace (add_column demo_client "t" "x" "string" "again"
                        closed_world).2)
    = [mkTable [mkFieldSchema "x" "int" ""; mkFieldSchema "x" "string" "again"]].
Proof.
  split; [reflexivity|].
  exact (add_column_always_appends demo_client "t" "x" "string" "again"
           (mkTable [mkFieldSchema "x" "int" ""]) closed_world eq_refl).
Defined.

Lemma remove_column_never_submits_witness :
  tables (server closed_world) !! (db demo_client, "t")
    = Some (mkTable [mkFieldSchema "x" "int" ""])
  ∧ (remove_column demo_client "t" "x" closed_world).1
    = Raise (HiveClientException ["Table t does not have column x"])
  ∧ server (remove_column demo_client "t" "x" closed_world).2
    = server closed_world
  ∧ submitted (trace (remove_column demo_client "t" "x" closed_world).2) = [].
Proof.
  split; [reflexivity|].
  exact (remove_column_never_submits demo_client "t" "x"
           (mkTable [mkFieldSchema "x" "int" ""]) closed_world eq_refl).
Defined.

(** ** The scope of a cursor *)

(** X16.  A cursor run to its end is one scope, however many batches it
    fetches: outside a session the transport is opened once, before the
    query, and closed once, after the empty batch; inside a session the
    cursor opens and closes nothing and hands the transport back as it
    found it. *)
Theorem execute_one_scope self q w schema batches :
  run_query (server w) q = Ok (schema, batches) ->
  ∃ fuel rs w' evs,
    consume fuel (execute self q) w = Some (rs, Ok tt, GenFinished, w')
    ∧ trace w' = trace w ++ evs
    ∧ opens evs = (if pinned (transport w) then 0 else 1)
    ∧ closes evs = (if pinned (transport w) then 0 else 1)
    ∧ transport w'
        = (if pinned (transport w) then transport w
           else mkTransport false (keep_open (transport w))).
Proof.
  intros Hq. unfold execute.
  set (w1 := mkWorld (transport (entered w))
               (with_result (server w) schema batches)
               (trace (entered w) ++ [EvExecute q; EvGetThriftSchema])).
  destruct (consume_suspended_all (map name schema) [] w1)
    as (w' & evs & Hc & Htr & _ & _ & Htp & Ho & Hcl).
  subst w1. cbn [server cur_batches with_result trace transport] in *.
  rewrite entered_transport in Htp, Hcl. rewrite entered_trace in Htr.
  eexists _, _, w', _. split.
  { rewrite (consume_created _ _ _ _ _ Hq). exact Hc. }
  split; [rewrite Htr; by rewrite <- !app_assoc|].
  rewrite !opens_app, !closes_app, Ho, Hcl, Htp.
  destruct (pinned (transport w)) eqn:Hp; rewrite ?Hp; [done|].
  change (pinned (mkTransport true (keep_open (transport w))))
    with (pinned (transport w)). by rewrite Hp.
Qed.

Lemma execute_one_scope_witness :
  run_query (server closed_world) "q"
    = Ok ([mkFieldSchema "a" "string" ""; mkFieldSchema "b" "string" ""],
          [[tsv ["1"; "2"]; tsv ["3"; "4"]]; []; [tsv ["5"; "6"]]])
  ∧ ∃ fuel rs w' evs,
      consume fuel (execute demo_client "q") closed_world
        = Some (rs, Ok tt, GenFinished, w')
      ∧ trace w' = trace closed_world ++ evs
      ∧ opens evs = 1 ∧ closes evs = 1
      ∧ transport w' = mkTransport false None.
Proof.
  split; [reflexivity|].
  exact (execute_one_scope demo_client "q" closed_world _ _ eq_refl).
Defined.

(** ** A concrete refused query *)

Lemma execute_refused_query_witness :
  run_query (server (fresh_world refusing_server)) "select"
    = Raise (RemoteException "HiveServerException")
  ∧ next (execute demo_client "select") (fresh_world refusing_server)
    = (Raise (RemoteException "HiveServerException"), GenFinished,
       mkWorld (mkTransport true None) refusing_server
               [EvOpen; EvExecute "select"])
  ∧ ∀ fuel, consume (S fuel) (execute demo_client "select")
                    (fresh_world refusing_server)
            = Some ([], Raise (RemoteException "HiveServerException"),
                    GenFinished,
                    (next (execute demo_client "select")
                          (fresh_world refusing_server)).2).
Proof.
  split; [reflexivity|].
  exact (execute_refused_query demo_client "select"
           (RemoteException "HiveServerException")
           (fresh_world refusing_server) eq_refl).
Defined.
